(** * DAG Builder: the graph engine of [components/dag-builder.tsx]

    A shallow embedding of the state handlers of the [DAGBuilder] React
    component (node and edge mutation, the cycle check run before an edge
    is inserted, graph import), and the properties of the engine proved
    over it.

    Conventions of the embedding:
    - a JS string is a [string] (code units below 256), [===] on strings is
      [String.eqb];
    - a JS number is a primitive [float] (IEEE-754 binary64);
    - [Map<string, string[]>] is a [gmap string (list string)], [Set<string>]
      a [gset string];
    - a handler is a function from the graph state to the feedback setter it
      calls ([setError], [setSuccess] or neither) and the graph state after
      its [setState]; a handler that returns before [setState] passes the
      state through unchanged. A handler runs in the render of the state
      it updates, so the [state] its closure reads is the [prev] its
      updater receives. The timers that clear the alerts and the selection
      state of the view are presentation state and are left out. *)

From Stdlib Require Import PrimFloat FloatOps FloatAxioms SpecFloat.
From stdpp Require Import gmap strings list relations pretty.

#[local] Set Warnings "-clear-no-such-hyp".

Open Scope string_scope.
Open Scope list_scope.
Open Scope stdpp_scope.

(** ** Data model *)

Record Node := mkNode { id : string; label : string; x : float; y : float }.

Record Edge := mkEdge { from : string; to : string }.

Global Instance Edge_eq_dec : EqDecision Edge.
Proof. solve_decision. Defined.

Record DAGState := mkState { nodes : list Node; edges : list Edge }.

Inductive Feedback :=
| setError (msg : string)
| setSuccess (msg : string)
| noFeedback.

Definition nodeIds (st : DAGState) : list string := id <$> nodes st.

(** ** The cycle check *)

Module CycleCheck.

(** [adjacencyList.get(k)?.push(v)]: appends to the array stored under [k],
    and does nothing when [k] is not a key. *)
Definition push (k v : string) (adj : gmap string (list string))
  : gmap string (list string) :=
  alter (λ succs, succs ++ [v]) k adj.

(** The adjacency list built at the start of [wouldCreateCycle]: one empty
    array per node id, every edge pushed under its [from], then the
    candidate edge pushed under its source. *)
Definition adjacencyList (st : DAGState) (from_ to_ : string)
  : gmap string (list string) :=
  let adj0 := foldl (λ adj node, <[id node := []]> adj) ∅ (nodes st) in
  let adj1 := foldl (λ adj edge, push (from edge) (to edge) adj) adj0 (edges st) in
  push from_ to_ adj1.

(** The two sets the search mutates. *)
Record Marks := mkMarks { visited : gset string; recStack : gset string }.

(** The [for (const neighbor of neighbors)] loop of [hasCycle], over the
    recursive call [visit]. [None] is an exhausted recursion budget. *)
Fixpoint forNeighbors (visit : string → Marks → option (bool * Marks))
    (neighbors : list string) (m : Marks) : option (bool * Marks) :=
  match neighbors with
  | [] => Some (false, m)
  | neighbor :: rest =>
      if decide (neighbor ∉ visited m) then
        match visit neighbor m with
        | None => None
        | Some (true, m') => Some (true, m')
        | Some (false, m') => forNeighbors visit rest m'
        end
      else if decide (neighbor ∈ recStack m) then Some (true, m)
      else forNeighbors visit rest m
  end.

(** The inner function [hasCycle]; [fuel] bounds the recursion depth. *)
Fixpoint hasCycle (fuel : nat) (adj : gmap string (list string))
    (nodeId : string) (m : Marks) : option (bool * Marks) :=
  match fuel with
  | O => None
  | S fuel' =>
      let m1 := mkMarks ({[nodeId]} ∪ visited m) ({[nodeId]} ∪ recStack m) in
      let neighbors := default [] (adj !! nodeId) in
      match forNeighbors (hasCycle fuel' adj) neighbors m1 with
      | None => None
      | Some (true, m2) => Some (true, m2)
      | Some (false, m2) =>
          Some (false, mkMarks (visited m2) (recStack m2 ∖ {[nodeId]}))
      end
  end.

(** [b] is in the array stored under [a]. *)
Definition succOf (adj : gmap string (list string)) (a b : string) : Prop :=
  b ∈ default [] (adj !! a).

(** Recursion budget of a search over [st]: the search enters a node at
    most once, and only the start node, the candidate target and edge
    targets can be entered ([hasCycle_budget_enough] below). *)
Definition budget (st : DAGState) : nat := 3 + length (edges st).

End CycleCheck.

(** [wouldCreateCycle] over the [state] of its closure. The search runs
    with [budget st], under which it always answers
    ([SearchFacts.hasCycle_budget_enough]): the last branch is never taken. *)
Definition wouldCreateCycle (st : DAGState) (from_ to_ : string) : bool :=
  if String.eqb from_ to_ then true
  else
    match CycleCheck.hasCycle (CycleCheck.budget st)
            (CycleCheck.adjacencyList st from_ to_) from_
            (CycleCheck.mkMarks ∅ ∅) with
    | Some (b, _) => b
    | None => false
    end.

(** ** The handlers *)

(** [String.prototype.trim] on code units below 256: the white space and
    line terminator code units are TAB, LF, VT, FF, CR, SP and NBSP. *)
Definition isWhiteSpace (c : Ascii.ascii) : bool :=
  bool_decide (Ascii.nat_of_ascii c ∈ [9; 10; 11; 12; 13; 32; 160]).

Fixpoint trimStart (s : string) : string :=
  match s with
  | String c s' => if isWhiteSpace c then trimStart s' else s
  | EmptyString => EmptyString
  end.

Definition trim (s : string) : string :=
  String.rev (trimStart (String.rev (trimStart s))).

Definition msgEmptyLabel : string := "Node label cannot be empty".
Definition msgNodeAdded : string := "Node added successfully".
Definition msgDuplicateEdge : string := "Edge already exists".
Definition msgWouldCreateCycle : string := "Cannot add edge: would create a cycle".
Definition msgEdgeAdded : string := "Edge added successfully".
Definition msgImported : string := "Graph imported successfully".
Definition msgInvalidFile : string := "Invalid file format".

(** [addNode]: [now] is the value of [Date.now()], [random1] and [random2]
    the two values of [Math.random()], [newNodeLabel] the text of the input
    field. *)
Definition addNode (now : N) (random1 random2 : float) (newNodeLabel : string)
    (st : DAGState) : Feedback * DAGState :=
  if String.eqb (trim newNodeLabel) "" then (setError msgEmptyLabel, st)
  else
    let newNode :=
      mkNode ("node-" +:+ pretty now) (trim newNodeLabel)
             (random1 * 400 + 100)%float (random2 * 300 + 100)%float in
    (setSuccess msgNodeAdded, mkState (nodes st ++ [newNode]) (edges st)).

Definition deleteNode (nodeId : string) (st : DAGState) : Feedback * DAGState :=
  (noFeedback,
   mkState
     (List.filter (λ n, negb (String.eqb (id n) nodeId)) (nodes st))
     (List.filter (λ e, negb (String.eqb (from e) nodeId)
                        && negb (String.eqb (to e) nodeId)) (edges st))).

Definition addEdge (from_ to_ : string) (st : DAGState) : Feedback * DAGState :=
  if existsb (λ e, String.eqb (from e) from_ && String.eqb (to e) to_) (edges st)
  then (setError msgDuplicateEdge, st)
  else if wouldCreateCycle st from_ to_
  then (setError msgWouldCreateCycle, st)
  else (setSuccess msgEdgeAdded,
        mkState (nodes st) (edges st ++ [mkEdge from_ to_])).

Definition deleteEdge (from_ to_ : string) (st : DAGState) : Feedback * DAGState :=
  (noFeedback,
   mkState (nodes st)
     (List.filter (λ e, negb (String.eqb (from e) from_ && String.eqb (to e) to_))
        (edges st))).

(** The [setState] of [handleMouseMove]: [x_] and [y_] are the clamped
    pointer coordinates, [selectedNode] the node being dragged. *)
Definition handleMouseMove (selectedNode : string) (x_ y_ : float) (st : DAGState)
  : Feedback * DAGState :=
  (noFeedback,
   mkState
     ((λ node, if String.eqb (id node) selectedNode
               then mkNode (id node) (label node) x_ y_ else node)
        <$> nodes st)
     (edges st)).

Definition clearGraph (st : DAGState) : Feedback * DAGState :=
  (noFeedback, mkState [] []).

(** What [JSON.parse] makes of the text of the chosen file: a value, here
    one of the shape of [DAGState], or a thrown [SyntaxError]. *)
Inductive Parsed :=
| parsedState (imported : DAGState)
| syntaxError.

(** The [reader.onload] callback of [importGraph]. *)
Definition importGraph (parsed : Parsed) (st : DAGState) : Feedback * DAGState :=
  match parsed with
  | parsedState imported => (setSuccess msgImported, imported)
  | syntaxError => (setError msgInvalidFile, st)
  end.

(** ** Commands and runs *)

(** The mutations a caller can issue, with the arguments of the handler. *)
Inductive Command :=
| cmdAddNode (now : N) (random1 random2 : float) (newNodeLabel : string)
| cmdDeleteNode (nodeId : string)
| cmdAddEdge (from_ to_ : string)
| cmdDeleteEdge (from_ to_ : string)
| cmdMouseMove (selectedNode : string) (x_ y_ : float)
| cmdClearGraph.

Definition step (c : Command) (st : DAGState) : Feedback * DAGState :=
  match c with
  | cmdAddNode now r1 r2 newNodeLabel => addNode now r1 r2 newNodeLabel st
  | cmdDeleteNode nodeId => deleteNode nodeId st
  | cmdAddEdge from_ to_ => addEdge from_ to_ st
  | cmdDeleteEdge from_ to_ => deleteEdge from_ to_ st
  | cmdMouseMove selectedNode x_ y_ => handleMouseMove selectedNode x_ y_ st
  | cmdClearGraph => clearGraph st
  end.

(** The state after a sequence of commands, first command first. *)
Definition run (cmds : list Command) (st : DAGState) : DAGState :=
  foldl (λ s c, snd (step c s)) st cmds.

(** The initial value of [useState]. *)
Definition emptyGraph : DAGState := mkState [] [].

Definition isError (fb : Feedback) : bool :=
  match fb with setError _ => true | _ => false end.

(** [p] holds of every command of the sequence, in the state the command
    is issued in. *)
Fixpoint throughout (p : Command → DAGState → bool) (cmds : list Command)
    (st : DAGState) : bool :=
  match cmds with
  | [] => true
  | c :: rest => p c st && throughout p rest (snd (step c st))
  end.

(** The command is not answered with [setError]. *)
Definition succeeds (c : Command) (st : DAGState) : bool :=
  negb (isError (fst (step c st))).

(** The [from] of a [cmdAddEdge] names a node of the state. *)
Definition sourceIsNode (c : Command) (st : DAGState) : bool :=
  match c with
  | cmdAddEdge from_ _ => bool_decide (from_ ∈ nodeIds st)
  | _ => true
  end.

(** Both endpoints of a [cmdAddEdge] name nodes of the state.
    ([handleNodeClick], the caller of [addEdge], passes [connectingFrom] and
    the id of the node that was clicked.) *)
Definition namesNodes (c : Command) (st : DAGState) : bool :=
  match c with
  | cmdAddEdge from_ to_ =>
      bool_decide (from_ ∈ nodeIds st) && bool_decide (to_ ∈ nodeIds st)
  | _ => true
  end.

(** ** Graph properties *)

(** There is an edge from [a] to [b]. *)
Definition edgeRel (es : list Edge) (a b : string) : Prop := mkEdge a b ∈ es.

(** [b] can be reached from [a] along zero or more edges. *)
Definition reaches (st : DAGState) (a b : string) : Prop :=
  rtc (edgeRel (edges st)) a b.

(** A directed cycle through [a]: a path of one or more edges back to it. *)
Definition onCycle (st : DAGState) (a : string) : Prop :=
  tc (edgeRel (edges st)) a a.

Definition acyclic (st : DAGState) : Prop := ∀ a, ¬ onCycle st a.

Definition noDangling (st : DAGState) : Prop :=
  ∀ e, e ∈ edges st → from e ∈ nodeIds st ∧ to e ∈ nodeIds st.

(** A relation with the pair [(u, v)] added. *)
Definition withEdge {A : Type} (R : relation A) (u v : A) : relation A :=
  λ a b, R a b ∨ (a = u ∧ b = v).

(** Every edge leaves a node of the graph. *)
Definition sourcesExist (st : DAGState) : Prop :=
  ∀ e, e ∈ edges st → from e ∈ nodeIds st.

(** [st'] has no edge that [st] has not, and an endpoint of an edge of [st']
    that names a node of [st] names a node of [st']. *)
Definition keeps (st st' : DAGState) : Prop :=
  edges st' ⊆ edges st
  ∧ ∀ e i, e ∈ edges st' → i = from e ∨ i = to e →
           i ∈ nodeIds st → i ∈ nodeIds st'.

(** ** The order of checks of [addEdge] as the specification words it *)

Inductive EdgeVerdict :=
| UnknownNode | SelfLoop | DuplicateEdge | WouldCreateCycle | Accepted.

(** The verdict a feedback of [addEdge] stands for. *)
Definition verdictOf (fb : Feedback) : option EdgeVerdict :=
  match fb with
  | setError msg =>
      if String.eqb msg msgDuplicateEdge then Some DuplicateEdge
      else if String.eqb msg msgWouldCreateCycle then Some WouldCreateCycle
      else None
  | setSuccess msg => if String.eqb msg msgEdgeAdded then Some Accepted else None
  | noFeedback => None
  end.

(** The four checks in the order of the specification. *)
Definition addEdge_spec (from_ to_ : string) (st : DAGState) : EdgeVerdict :=
  if negb (bool_decide (from_ ∈ nodeIds st) && bool_decide (to_ ∈ nodeIds st))
  then UnknownNode
  else if String.eqb from_ to_ then SelfLoop
  else if bool_decide (mkEdge from_ to_ ∈ edges st) then DuplicateEdge
  else if wouldCreateCycle st from_ to_ then WouldCreateCycle
  else Accepted.

(** ** The failures of the store as the specification words them *)



(** ** Sample graphs *)

Definition nodeA : Node := mkNode "A" "a" 100 100.
Definition nodeB : Node := mkNode "B" "b" 200 100.
Definition nodeC : Node := mkNode "C" "c" 300 100.

(** Nodes A, B, C with the edges A→B and B→C. *)
Definition chainABC : DAGState :=
  mkState [nodeA; nodeB; nodeC] [mkEdge "A" "B"; mkEdge "B" "C"].

(** A diamond A→B→D, A→C→D, and a node E with no edge. *)
Definition diamond : DAGState :=
  mkState [nodeA; nodeB; nodeC; mkNode "D" "d" 200 200; mkNode "E" "e" 100 200]
          [mkEdge "A" "B"; mkEdge "A" "C"; mkEdge "B" "D"; mkEdge "C" "D"].

(** A session at the view: three nodes, the chain of edges between them,
    a rejected closing edge, and the middle node deleted. *)
Definition sampleSession : list Command :=
  [ cmdAddNode 1 0.5 0.5 "a"; cmdAddNode 2 0.5 0.5 "b"; cmdAddNode 3 0.5 0.5 "c";
    cmdAddEdge "node-1" "node-2"; cmdAddEdge "node-2" "node-3";
    cmdAddEdge "node-3" "node-1"; cmdDeleteNode "node-2" ].

(** Two edges between ids that name no node yet, then the two nodes. *)
Definition earlyEdges : list Command :=
  [ cmdAddEdge "node-1" "node-2"; cmdAddEdge "node-2" "node-1";
    cmdAddNode 1 0.5 0.5 "a"; cmdAddNode 2 0.5 0.5 "b" ].

(** A document whose only edge points at a node id that does not exist. *)
Definition danglingDocument : DAGState :=
  mkState [nodeA] [mkEdge "A" "ghost"].

(** ** The rest of the component *)

(** The values of [Date.now()] in the [cmdAddNode] commands of a sequence. *)
Definition timestamps (cmds : list Command) : list N :=
  omap (λ c, match c with cmdAddNode now _ _ _ => Some now | _ => None end) cmds.

(** [Math.max(a, b)] and [Math.min(a, b)] on numbers: [NaN] when an argument
    is [NaN]; [+0] is larger than [-0]. *)
Definition mathMax (a b : float) : float :=
  if is_nan a || is_nan b then nan
  else if is_zero b && negb (get_sign b) && is_zero a && get_sign a then b
  else if (a <? b)%float then b else a.

Definition mathMin (a b : float) : float :=
  if is_nan a || is_nan b then nan
  else if is_zero b && get_sign b && is_zero a && negb (get_sign a) then b
  else if (b <? a)%float then b else a.

(** The coordinate that [handleMouseMove] stores:
    [Math.max(30, Math.min(pointer - origin - offset, extent - 30))]. *)
Definition clampToCanvas (pointer origin offset extent : float) : float :=
  mathMax 30 (mathMin (pointer - origin - offset) (extent - 30))%float.

(** The ends [(x1, y1, x2, y2)] of a line of the view. *)
Record Line := mkLine { x1 : float; y1 : float; x2 : float; y2 : float }.

(** [state.nodes.find((n) => n.id === nodeId)]. *)
Definition findNode (st : DAGState) (nodeId : string) : option Node :=
  List.find (λ n, String.eqb (id n) nodeId) (nodes st).

(** The [state.edges.map] of the render: one entry per edge, the line
    between the two nodes found, or [null] when a node is not found. *)
Definition drawEdges (st : DAGState) : list (option Line) :=
  (λ edge,
     match findNode st (from edge), findNode st (to edge) with
     | Some fromNode, Some toNode =>
         Some (mkLine (x fromNode) (y fromNode) (x toNode) (y toNode))
     | _, _ => None
     end) <$> edges st.

(** A JS value of type [string | null] used as a condition: [null] and the
    empty string are falsy. *)
Definition truthy (v : option string) : bool :=
  match v with
  | Some s => negb (String.eqb s "")
  | None => false
  end.

(** [canvasRef.current.getBoundingClientRect()]. *)
Record DOMRect :=
  mkRect { rectLeft : float; rectTop : float; rectWidth : float; rectHeight : float }.

(** The component with all its [useState] hooks, and its handlers as
    functions on that state. The handlers of the graph above are the
    [setState] part of the handlers of the same name here. *)
Module View.

Record Component := mkComponent {
  state : DAGState;
  selectedNode : option string;
  connectingFrom : option string;
  newNodeLabel : string;
  error : option string;
  success : option string;
  isDragging : bool;
  dragOffset : float * float;
}.

(** The first render. *)
Definition initial : Component :=
  mkComponent emptyGraph None None "" None None false (0, 0)%float.

Definition setState (st : DAGState) (v : Component) : Component :=
  mkComponent st (selectedNode v) (connectingFrom v) (newNodeLabel v)
              (error v) (success v) (isDragging v) (dragOffset v).

Definition setSelectedNode (sel : option string) (v : Component) : Component :=
  mkComponent (state v) sel (connectingFrom v) (newNodeLabel v)
              (error v) (success v) (isDragging v) (dragOffset v).

Definition setConnectingFrom (c : option string) (v : Component) : Component :=
  mkComponent (state v) (selectedNode v) c (newNodeLabel v)
              (error v) (success v) (isDragging v) (dragOffset v).

Definition setNewNodeLabel (s : string) (v : Component) : Component :=
  mkComponent (state v) (selectedNode v) (connectingFrom v) s
              (error v) (success v) (isDragging v) (dragOffset v).

Definition setIsDragging (b : bool) (v : Component) : Component :=
  mkComponent (state v) (selectedNode v) (connectingFrom v) (newNodeLabel v)
              (error v) (success v) b (dragOffset v).

Definition setDragOffset (o : float * float) (v : Component) : Component :=
  mkComponent (state v) (selectedNode v) (connectingFrom v) (newNodeLabel v)
              (error v) (success v) (isDragging v) o.

(** The call of [setError(msg)] or [setSuccess(msg)] of a handler. *)
Definition report (fb : Feedback) (v : Component) : Component :=
  match fb with
  | setError msg =>
      mkComponent (state v) (selectedNode v) (connectingFrom v) (newNodeLabel v)
                  (Some msg) (success v) (isDragging v) (dragOffset v)
  | setSuccess msg =>
      mkComponent (state v) (selectedNode v) (connectingFrom v) (newNodeLabel v)
                  (error v) (Some msg) (isDragging v) (dragOffset v)
  | noFeedback => v
  end.

(** The callbacks of the two timers, [setError(null)] and
    [setSuccess(null)]. *)
Definition errorTimeout (v : Component) : Component :=
  mkComponent (state v) (selectedNode v) (connectingFrom v) (newNodeLabel v)
              None (success v) (isDragging v) (dragOffset v).

Definition successTimeout (v : Component) : Component :=
  mkComponent (state v) (selectedNode v) (connectingFrom v) (newNodeLabel v)
              (error v) None (isDragging v) (dragOffset v).

Definition addNode (now : N) (random1 random2 : float) (v : Component)
  : Component :=
  let r := addNode now random1 random2 (newNodeLabel v) (state v) in
  if isError (fst r) then report (fst r) v
  else report (fst r) (setNewNodeLabel "" (setState (snd r) v)).

Definition deleteNode (nodeId : string) (v : Component) : Component :=
  setConnectingFrom None
    (setSelectedNode None (setState (snd (deleteNode nodeId (state v))) v)).

Definition addEdge (from_ to_ : string) (v : Component) : Component :=
  let r := addEdge from_ to_ (state v) in
  report (fst r) (setState (snd r) v).

Definition deleteEdge (from_ to_ : string) (v : Component) : Component :=
  setState (snd (deleteEdge from_ to_ (state v))) v.

Definition handleNodeClick (nodeId : string) (v : Component) : Component :=
  match connectingFrom v with
  | Some c =>
      if truthy (connectingFrom v) then
        setConnectingFrom None
          (if negb (String.eqb c nodeId) then addEdge c nodeId v else v)
      else setSelectedNode (Some nodeId) v
  | None => setSelectedNode (Some nodeId) v
  end.

Definition startConnection (nodeId : string) (v : Component) : Component :=
  setSelectedNode None (setConnectingFrom (Some nodeId) v).

(** [button], [clientX] and [clientY] are the fields of the mouse event. *)
Definition handleNodeMouseDown (button : N) (clientX clientY : float)
    (nodeId : string) (v : Component) : Component :=
  if negb (N.eqb button 0) then v
  else
    let v1 := setSelectedNode (Some nodeId) (setIsDragging true v) in
    match findNode (state v) nodeId with
    | Some node =>
        setDragOffset ((clientX - x node)%float, (clientY - y node)%float) v1
    | None => v1
    end.

(** [rect] is the rectangle of the canvas, [None] when [canvasRef.current]
    is [null]. *)
Definition handleMouseMove (clientX clientY : float) (rect : option DOMRect)
    (v : Component) : Component :=
  match selectedNode v, rect with
  | Some sel, Some r =>
      if negb (isDragging v) || negb (truthy (selectedNode v)) then v
      else
        let x_ := clampToCanvas clientX (rectLeft r) (fst (dragOffset v)) (rectWidth r) in
        let y_ := clampToCanvas clientY (rectTop r) (snd (dragOffset v)) (rectHeight r) in
        setState (snd (handleMouseMove sel x_ y_ (state v))) v
  | _, _ => v
  end.

Definition handleMouseUp (v : Component) : Component := setIsDragging false v.

(** [file] is [None] when no file was chosen, and what [JSON.parse] makes
    of its text otherwise. *)
Definition importGraph (file : option Parsed) (v : Component) : Component :=
  match file with
  | None => v
  | Some parsed =>
      let r := importGraph parsed (state v) in
      report (fst r) (setState (snd r) v)
  end.

Definition clearGraph (v : Component) : Component :=
  setConnectingFrom None
    (setSelectedNode None (setState (snd (clearGraph (state v))) v)).

(** What the user and the timers can do to the component. *)
Inductive Event :=
| typeLabel (s : string)
| pressAdd (now : N) (random1 random2 : float)
| clickNode (nodeId : string)
| mouseDownNode (button : N) (clientX clientY : float) (nodeId : string)
| mouseMove (clientX clientY : float) (rect : option DOMRect)
| mouseUp
| pressConnect
| pressDelete
| clickEdge (from_ to_ : string)
| pressClear
| chooseFile (file : option Parsed)
| errorExpires
| successExpires.

(** The handler the view binds to the event. The two buttons of the
    selected node pass [selectedNode] to their handler. *)
Definition dispatch (e : Event) (v : Component) : Component :=
  match e with
  | typeLabel s => setNewNodeLabel s v
  | pressAdd now random1 random2 => addNode now random1 random2 v
  | clickNode nodeId => handleNodeClick nodeId v
  | mouseDownNode button clientX clientY nodeId =>
      handleNodeMouseDown button clientX clientY nodeId v
  | mouseMove clientX clientY rect => handleMouseMove clientX clientY rect v
  | mouseUp => handleMouseUp v
  | pressConnect =>
      match selectedNode v with Some sel => startConnection sel v | None => v end
  | pressDelete =>
      match selectedNode v with Some sel => deleteNode sel v | None => v end
  | clickEdge from_ to_ => deleteEdge from_ to_ v
  | pressClear => clearGraph v
  | chooseFile file => importGraph file v
  | errorExpires => errorTimeout v
  | successExpires => successTimeout v
  end.

(** The element the event needs is in the render of [v]: a node of the
    state, a drawn edge, the buttons shown for a selected node, the clear
    button enabled. *)
Definition offered (e : Event) (v : Component) : bool :=
  match e with
  | clickNode nodeId | mouseDownNode _ _ _ nodeId =>
      bool_decide (nodeId ∈ nodeIds (state v))
  | pressConnect | pressDelete => truthy (selectedNode v)
  | clickEdge from_ to_ =>
      bool_decide (mkEdge from_ to_ ∈ edges (state v))
      && bool_decide (from_ ∈ nodeIds (state v))
      && bool_decide (to_ ∈ nodeIds (state v))
  | pressClear => negb (bool_decide (nodes (state v) = []))
  | _ => true
  end.

(** The event replaces the graph by an imported one. *)
Definition imports (e : Event) : bool :=
  match e with
  | chooseFile (Some (parsedState _)) => true
  | _ => false
  end.

(** The component after a sequence of events, first event first. *)
Definition run (events : list Event) (v : Component) : Component :=
  foldl (λ v e, dispatch e v) v events.

(** Every event of the sequence is offered by the render it arrives in,
    and none imports a graph. *)
Fixpoint edits (events : list Event) (v : Component) : bool :=
  match events with
  | [] => true
  | e :: rest => offered e v && negb (imports e) && edits rest (dispatch e v)
  end.

End View.

(** The graph of the component is acyclic with no dangling edge, and the
    node selected and the node a connection starts from, when there is
    one, are nodes of the graph. *)
Definition consistent (v : View.Component) : Prop :=
  acyclic (View.state v)
  ∧ noDangling (View.state v)
  ∧ (∀ sel, View.selectedNode v = Some sel → sel ∈ nodeIds (View.state v))
  ∧ (∀ c, View.connectingFrom v = Some c → c ∈ nodeIds (View.state v)).

(** A session at the component: two nodes added, the first selected and
    connected to the second, the second connected back to the first, which
    is refused, and the first node deleted. *)
Definition sampleEvents : list View.Event :=
  [ View.typeLabel "a"; View.pressAdd 1 0.5 0.5;
    View.typeLabel "b"; View.pressAdd 2 0.25 0.25;
    View.mouseDownNode 0 300 200 "node-1";
    View.mouseMove 320 210 (Some (mkRect 0 0 800 600)); View.mouseUp;
    View.clickNode "node-1"; View.pressConnect; View.clickNode "node-2";
    View.clickNode "node-2"; View.pressConnect; View.clickNode "node-1";
    View.errorExpires; View.clickNode "node-1"; View.pressDelete ].

(** The chain A→B→C in a component where a connection starts from C. *)
Definition connectingFromC : View.Component :=
  View.mkComponent chainABC None (Some "C") "" None None false (0, 0)%float.

(** The edges the search of [wouldCreateCycle] follows: those that leave
    the id of a node, the candidate edge among them. *)
Definition searched (st : DAGState) (from_ to_ : string) : relation string :=
  λ a b, a ∈ nodeIds st ∧ withEdge (edgeRel (edges st)) from_ to_ a b.

(** A set of ids that no edge of [adj] leaves and that holds no cycle. *)
Definition finished (adj : gmap string (list string)) (B : gset string) : Prop :=
  (∀ a b, a ∈ B → CycleCheck.succOf adj a b → b ∈ B)
  ∧ (∀ a, a ∈ B → ¬ tc (CycleCheck.succOf adj) a a).

(** The chain A→B→C in a component where the node A is being dragged. *)
Definition draggingA : View.Component :=
  View.mkComponent chainABC (Some "A") None "" None None true (0, 0)%float.

(** A stored coordinate is [NaN], or at least 30 and, on a canvas whose
    extent leaves room for that, at most the extent less 30. *)
Definition withinMargin (c extent : float) : Prop :=
  is_nan c = true
  ∨ ((30 <=? c)%float = true
     ∧ ((30 <=? extent - 30)%float = true → (c <=? extent - 30)%float = true)).

(** An imported graph with a cycle A→B→A beside the nodes C and D. *)
Definition loopAB : DAGState :=
  mkState [nodeA; nodeB; nodeC; mkNode "D" "d" 200 200]
          [mkEdge "A" "B"; mkEdge "B" "A"].

(** A run in which two nodes are added in the same millisecond. *)
Definition sameInstant : list Command :=
  [ cmdAddNode 7 0.5 0.5 "a"; cmdAddNode 7 0.25 0.25 "b" ].

(** * Properties *)

(** ** Paths and cycles *)

Section Paths.

Context {A : Type} (R : relation A).

Lemma tc_subrel (R' : relation A) a b :
  (∀ x y, R x y → R' x y) → tc R a b → tc R' a b.
Proof.
  intros Hsub. induction 1 as [x y Hxy|x y z Hxy _ IH].
  - apply tc_once. by apply Hsub.
  - eapply tc_l; [by apply Hsub|done].
Qed.

(** A path that may use the added pair either avoids it, or reaches [u]
    and leaves again from [v], along [R] alone. *)
Lemma rtc_withEdge_inv u v a b :
  rtc (withEdge R u v) a b → rtc R a b ∨ (rtc R a u ∧ rtc R v b).
Proof.
  induction 1 as [a|a a' b [Haa'|[-> ->]] _ [IH|[IH1 IH2]]].
  - by left.
  - left. by eapply rtc_l.
  - right. split; [by eapply rtc_l|done].
  - by right.
  - by right.
Qed.

(** A cycle that needs the added pair gives a path from [v] back to [u]. *)
Lemma tc_withEdge_cycle u v c :
  tc (withEdge R u v) c c → (∃ d, tc R d d) ∨ rtc R v u.
Proof.
  inversion 1 as [x y [Hcc|[-> ->]]|x d z [Hcd|[-> ->]] Hdc]; simplify_eq.
  - left. exists c. by apply tc_once.
  - by right.
  - apply tc_rtc, rtc_withEdge_inv in Hdc as [Hdc|[Hdu Hvc]].
    + left. exists c. eapply tc_rtc_r; [by apply tc_once|done].
    + right. etrans; [exact Hvc|]. by eapply rtc_l.
  - apply tc_rtc, rtc_withEdge_inv in Hdc as [Hdc|[Hdu Hvc]]; by right.
Qed.

End Paths.

Lemma edgeRel_app es u v a b :
  edgeRel (es ++ [mkEdge u v]) a b ↔ withEdge (edgeRel es) u v a b.
Proof.
  unfold edgeRel, withEdge. rewrite elem_of_app, list_elem_of_singleton.
  naive_solver.
Qed.

(** Inserting [u → v] when [v] cannot reach [u] keeps the graph acyclic. *)
Lemma acyclic_add_edge ns es u v :
  acyclic (mkState ns es) → ¬ rtc (edgeRel es) v u →
  acyclic (mkState ns (es ++ [mkEdge u v])).
Proof.
  intros Hacyc Hreach c Hc. unfold onCycle in Hc; simpl in Hc.
  apply (tc_subrel _ (withEdge (edgeRel es) u v)) in Hc;
    [|intros x y; by apply edgeRel_app].
  apply tc_withEdge_cycle in Hc as [[d Hd]|Hvu]; [|done].
  by apply (Hacyc d).
Qed.

(** Removing edges keeps the graph acyclic. *)
Lemma acyclic_subset ns ns' es es' :
  es' ⊆ es → acyclic (mkState ns es) → acyclic (mkState ns' es').
Proof.
  intros Hsub Hacyc c Hc. apply (Hacyc c). unfold onCycle in *; simpl in *.
  eapply tc_subrel; [|exact Hc]. intros x y. apply Hsub.
Qed.

(** ** The depth-first search *)

Module SearchFacts.
Import CycleCheck.

Section Search.

Variable adj : gmap string (list string).

(** *** A search that answers [false] has closed the visited set *)

Lemma forNeighbors_false visit :
  (∀ k m m', recStack m ⊆ visited m → k ∉ visited m →
     visit k m = Some (false, m') →
     visited m ⊆ visited m' ∧ k ∈ visited m' ∧ recStack m' = recStack m ∧
     (∀ a b, a ∈ visited m' → a ∉ visited m → succOf adj a b →
        b ∈ visited m' ∧ b ∉ {[k]} ∪ recStack m)) →
  ∀ ns m m', recStack m ⊆ visited m →
    forNeighbors visit ns m = Some (false, m') →
    visited m ⊆ visited m' ∧ recStack m' = recStack m ∧
    (∀ b, b ∈ ns → b ∈ visited m' ∧ b ∉ recStack m) ∧
    (∀ a b, a ∈ visited m' → a ∉ visited m → succOf adj a b →
       b ∈ visited m' ∧ b ∉ recStack m).
Proof.
  intros Hvisit ns. induction ns as [|n ns IH]; intros m m' Hsub Hrun; simpl in Hrun.
  - injection Hrun as <-. set_solver.
  - destruct (decide (n ∉ visited m)) as [Hn|Hn].
    + destruct (visit n m) as [[[] m1]|] eqn:Hv; try discriminate.
      apply Hvisit in Hv as (Hmono & Hin & Hrec & Hclosed); [|done..].
      apply IH in Hrun as (Hmono' & Hrec' & Hns & Hclosed'); [|set_solver].
      rewrite Hrec in Hrec', Hns, Hclosed'.
      split; [set_solver|]. split; [done|]. split.
      * intros b [->|Hb]%elem_of_cons; [set_solver|by apply Hns].
      * intros a b Ha Hfresh Hab.
        destruct (decide (a ∈ visited m1)) as [Ha1|Ha1].
        -- destruct (Hclosed a b Ha1 Hfresh Hab). set_solver.
        -- by apply (Hclosed' a b).
    + destruct (decide (n ∈ recStack m)) as [Hr|Hr]; [discriminate|].
      apply IH in Hrun as (Hmono' & Hrec' & Hns & Hclosed'); [|done].
      split; [done|]. split; [done|]. split; [|done].
      intros b [->|Hb]%elem_of_cons; [|by apply Hns].
      split; [|done]. apply Hmono'. by apply dec_stable.
Qed.

Lemma hasCycle_false fuel :
  ∀ n m m', recStack m ⊆ visited m → n ∉ visited m →
    hasCycle fuel adj n m = Some (false, m') →
    visited m ⊆ visited m' ∧ n ∈ visited m' ∧ recStack m' = recStack m ∧
    (∀ a b, a ∈ visited m' → a ∉ visited m → succOf adj a b →
       b ∈ visited m' ∧ b ∉ {[n]} ∪ recStack m).
Proof.
  induction fuel as [|fuel IH]; intros n m m' Hsub Hn Hrun; simpl in Hrun;
    [discriminate|].
  destruct (forNeighbors _ _ _) as [[[] m2]|] eqn:Hloop; try discriminate.
  injection Hrun as <-. simpl.
  apply (forNeighbors_false _ IH) in Hloop as (Hmono & Hrec & Hns & Hclosed);
    simpl in *; [|set_solver].
  split; [set_solver|]. split; [set_solver|]. split; [set_solver|].
  intros a b Ha Hfresh Hab. destruct (decide (a = n)) as [->|Hne].
  - exact (Hns b Hab).
  - apply (Hclosed a b); [done|set_solver|done].
Qed.

(** *** A search that answers [true] has found a cycle *)

Lemma forNeighbors_sound (visit : string → Marks → option (bool * Marks)) n :
  (∀ k m (b : bool) m', visit k m = Some (b, m') →
     (∀ a, a ∈ recStack m → rtc (succOf adj) a k) →
     if b then ∃ c, tc (succOf adj) c c else recStack m' ⊆ recStack m) →
  ∀ ns m b m', (∀ k, k ∈ ns → succOf adj n k) →
    (∀ a, a ∈ recStack m → rtc (succOf adj) a n) →
    forNeighbors visit ns m = Some (b, m') →
    if b then ∃ c, tc (succOf adj) c c else recStack m' ⊆ recStack m.
Proof.
  intros Hvisit ns. induction ns as [|k ns IH]; intros m b m' Hns Hstack Hrun;
    simpl in Hrun.
  - by injection Hrun as <- <-.
  - assert (succOf adj n k) as Hnk by (apply Hns; left).
    assert (∀ k', k' ∈ ns → succOf adj n k') as Hns' by (intros; apply Hns; by right).
    destruct (decide (k ∉ visited m)) as [Hk|Hk].
    + destruct (visit k m) as [[[] m1]|] eqn:Hv; try discriminate.
      * injection Hrun as <- <-. apply (Hvisit _ _ true _ Hv).
        intros a Ha. eapply rtc_r; eauto.
      * assert (recStack m1 ⊆ recStack m) as Hsub.
        { apply (Hvisit _ _ false _ Hv). intros a Ha. eapply rtc_r; eauto. }
        specialize (IH m1 b m' Hns'). destruct b.
        -- apply IH; [|done]. intros a Ha. apply Hstack. set_solver.
        -- etrans; [|exact Hsub]. apply IH; [|done].
           intros a Ha. apply Hstack. set_solver.
    + destruct (decide (k ∈ recStack m)) as [Hr|Hr].
      * injection Hrun as <- <-. exists k.
        eapply tc_rtc_l; [by apply Hstack|]. by apply tc_once.
      * by apply (IH m b m').
Qed.

Lemma hasCycle_sound fuel :
  ∀ n m b m', hasCycle fuel adj n m = Some (b, m') →
    (∀ a, a ∈ recStack m → rtc (succOf adj) a n) →
    if b then ∃ c, tc (succOf adj) c c else recStack m' ⊆ recStack m.
Proof.
  induction fuel as [|fuel IH]; intros n m b m' Hrun Hstack; simpl in Hrun;
    [discriminate|].
  destruct (forNeighbors _ _ _) as [[b2 m2]|] eqn:Hloop; try discriminate.
  assert (∀ a, a ∈ {[n]} ∪ recStack m → rtc (succOf adj) a n) as Hstack1.
  { intros a [->%elem_of_singleton|Ha]%elem_of_union; [done|by apply Hstack]. }
  pose proof (forNeighbors_sound _ n IH _ (mkMarks _ _) _ _ (λ k Hk, Hk) Hstack1 Hloop) as Hs.
  destruct b2; injection Hrun as <- <-; simpl in *; [done|set_solver].
Qed.

(** *** A search with enough budget answers *)

Variable universe : gset string.
Hypothesis universe_closed : ∀ a b, succOf adj a b → b ∈ universe.

Lemma forNeighbors_total (visit : string → Marks → option (bool * Marks)) fuel :
  (∀ k m, k ∈ universe → k ∉ visited m → size (universe ∖ visited m) < fuel →
     ∃ b m', visit k m = Some (b, m') ∧ visited m ⊆ visited m') →
  ∀ ns m, (∀ k, k ∈ ns → k ∈ universe) →
    size (universe ∖ visited m) < fuel →
    ∃ b m', forNeighbors visit ns m = Some (b, m') ∧ visited m ⊆ visited m'.
Proof.
  intros Hvisit ns. induction ns as [|k ns IH]; intros m Hns Hsize; simpl.
  - by exists false, m.
  - assert (∀ k', k' ∈ ns → k' ∈ universe) as Hns' by (intros; apply Hns; by right).
    destruct (decide (k ∉ visited m)) as [Hk|Hk].
    + destruct (Hvisit k m) as (b & m1 & -> & Hmono); [apply Hns; left|done..|].
      destruct b; [by exists true, m1|].
      destruct (IH m1 Hns') as (b & m' & -> & Hmono').
      * eapply Nat.le_lt_trans; [apply subseteq_size|exact Hsize]. set_solver.
      * exists b, m'. split; [done|set_solver].
    + destruct (decide (k ∈ recStack m)); [by exists true, m|by apply IH].
Qed.

Lemma hasCycle_total fuel :
  ∀ n m, n ∈ universe → n ∉ visited m → size (universe ∖ visited m) < fuel →
    ∃ b m', hasCycle fuel adj n m = Some (b, m') ∧ visited m ⊆ visited m'.
Proof.
  induction fuel as [|fuel IH]; intros n m Hn Hfresh Hsize; [lia|]. simpl.
  destruct (forNeighbors_total _ fuel IH (default [] (adj !! n))
              (mkMarks ({[n]} ∪ visited m) ({[n]} ∪ recStack m)))
    as (b & m2 & -> & Hmono); simpl in *.
  - intros k Hk. by apply (universe_closed n).
  - assert (universe ∖ ({[n]} ∪ visited m) ⊂ universe ∖ visited m) as Hlt
      by set_solver.
    apply subset_size in Hlt. lia.
  - destruct b; eexists _, _; (split; [done|simpl; set_solver]).
Qed.

End Search.

(** *** The adjacency list of a state *)

Lemma lookup_fold_insert (ns : list Node) (adj : gmap string (list string)) k :
  foldl (λ adj node, <[id node := []]> adj) adj ns !! k
  = if decide (k ∈ id <$> ns) then Some [] else adj !! k.
Proof.
  revert adj. induction ns as [|n ns IH]; intros adj.
  - simpl foldl. case_decide; [set_solver|done].
  - simpl foldl. rewrite IH, lookup_insert, fmap_cons.
    repeat case_decide; set_solver.
Qed.

Lemma lookup_fold_push (es : list Edge) (adj : gmap string (list string)) k :
  foldl (λ adj edge, push (from edge) (to edge) adj) adj es !! k
  = (λ succs, succs ++ (to <$> filter (λ e, from e = k) es)) <$> adj !! k.
Proof.
  revert adj. induction es as [|e es IH]; intros adj; simpl.
  - destruct (adj !! k); simpl; [by rewrite app_nil_r|done].
  - rewrite IH. unfold push. rewrite lookup_alter, filter_cons.
    destruct (decide (from e = k)) as [<-|Hne].
    + destruct (adj !! from e); simpl; [by rewrite <- app_assoc|done].
    + done.
Qed.

Lemma lookup_adjacencyList st from_ to_ k :
  adjacencyList st from_ to_ !! k
  = if decide (k ∈ nodeIds st)
    then Some ((to <$> filter (λ e, from e = k) (edges st))
               ++ if decide (from_ = k) then [to_] else [])
    else None.
Proof.
  unfold adjacencyList, push at 1. rewrite lookup_alter.
  rewrite !lookup_fold_push, !lookup_fold_insert, !lookup_empty.
  fold (nodeIds st).
  repeat case_decide; simplify_eq; simpl; try done.
  by rewrite app_nil_r.
Qed.

(** The successors the search sees are the targets of the edges that leave
    a node of the state, and the candidate target at its source. *)
Lemma succOf_adjacencyList st from_ to_ a b :
  succOf (adjacencyList st from_ to_) a b
  ↔ a ∈ nodeIds st ∧ (edgeRel (edges st) a b ∨ (a = from_ ∧ b = to_)).
Proof.
  unfold succOf, edgeRel. rewrite lookup_adjacencyList.
  destruct (decide (a ∈ nodeIds st)) as [Ha|Ha]; simpl; [|set_solver].
  rewrite elem_of_app, list_elem_of_fmap.
  split.
  - intros [([f t] & -> & [Hf He]%list_elem_of_filter)|Hc]; simpl in *.
    + subst. by eauto.
    + destruct (decide (from_ = a)); set_solver.
  - intros [_ [He|[-> ->]]].
    + left. exists (mkEdge a b). split; [done|]. by apply list_elem_of_filter.
    + right. rewrite decide_True by done. set_solver.
Qed.

(** *** The budget of [wouldCreateCycle] is enough *)

Lemma size_list_to_set_le (l : list string) :
  (size (list_to_set l : gset string) ≤ length l)%nat.
Proof.
  induction l as [|a l IH].
  - rewrite list_to_set_nil, size_empty. simpl. lia.
  - rewrite list_to_set_cons, size_union_alt, size_singleton. simpl length.
    assert (size (list_to_set l ∖ {[a]} : gset string) ≤ size (list_to_set l : gset string))%nat
      as Hle by (apply subseteq_size; set_solver).
    lia.
Qed.

Lemma hasCycle_budget_enough st from_ to_ :
  ∃ b m', hasCycle (budget st) (adjacencyList st from_ to_) from_ (mkMarks ∅ ∅)
          = Some (b, m').
Proof.
  set (universe := {[from_; to_]} ∪ list_to_set (to <$> edges st) : gset string).
  destruct (hasCycle_total (adjacencyList st from_ to_) universe) with
    (fuel := budget st) (n := from_) (m := mkMarks ∅ ∅) as (b & m' & Hrun & _).
  - intros a b [_ [He|[-> ->]]]%succOf_adjacencyList; [|set_solver].
    apply elem_of_union_r, elem_of_list_to_set, list_elem_of_fmap.
    by exists (mkEdge a b).
  - set_solver.
  - set_solver.
  - simpl. unfold budget.
    pose proof (size_list_to_set_le (to <$> edges st)) as Hle.
    rewrite length_fmap in Hle.
    assert (size universe ≤ size ({[from_; to_]} : gset string)
                            + size (list_to_set (to <$> edges st) : gset string))%nat as Hu.
    { unfold universe. rewrite size_union_alt.
      apply Nat.add_le_mono_l, subseteq_size. set_solver. }
    assert (size ({[from_; to_]} : gset string) ≤ 2)%nat as H2.
    { rewrite size_union_alt, size_singleton.
      assert (size (({[to_]} : gset string) ∖ {[from_]}) ≤ size ({[to_]} : gset string))%nat
        as Hle' by (apply subseteq_size; set_solver).
      rewrite size_singleton in Hle'. lia. }
    assert (universe ∖ ∅ = universe) as -> by set_solver. lia.
  - by exists b, m'.
Qed.

(** *** What [wouldCreateCycle] answers *)

(** [false] is answered only when the target cannot reach the source. *)
Lemma wouldCreateCycle_false st from_ to_ :
  sourcesExist st → from_ ∈ nodeIds st →
  wouldCreateCycle st from_ to_ = false →
  from_ ≠ to_ ∧ ¬ reaches st to_ from_.
Proof.
  intros Hdang Hfrom. unfold wouldCreateCycle.
  destruct (String.eqb_spec from_ to_) as [|Hne]; [discriminate|].
  destruct (hasCycle_budget_enough st from_ to_) as (b & m' & Hrun).
  rewrite Hrun. intros ->. split; [done|].
  apply hasCycle_false in Hrun as (_ & Hin & _ & Hclosed); simpl; [|set_solver..].
  assert (∀ a b, a ∈ visited m' → edgeRel (edges st) a b →
                 b ∈ visited m' ∧ b ≠ from_) as Hstep.
  { intros a b Ha Hab. destruct (Hclosed a b) as [Hb Hnb]; [done|set_solver| |set_solver].
    apply succOf_adjacencyList. split; [|by left].
    apply (Hdang _ Hab). }
  assert (to_ ∈ visited m') as Hto.
  { destruct (Hclosed from_ to_) as [Hb _]; [done|set_solver| |done].
    apply succOf_adjacencyList. split; [done|by right]. }
  assert (∀ a, rtc (edgeRel (edges st)) a from_ → a ∈ visited m' → a = from_)
    as Hback.
  { apply (rtc_ind_l (λ a, a ∈ visited m' → a = from_)); [done|].
    intros a b Hab _ IH Ha. destruct (Hstep a b Ha Hab) as [Hb Hnb].
    by destruct Hnb; apply IH. }
  intros Hreach. apply Hne. symmetry. by apply Hback.
Qed.

(** [true] is answered only for a self-loop or when the target reaches the
    source. *)
Lemma wouldCreateCycle_true st from_ to_ :
  acyclic st → wouldCreateCycle st from_ to_ = true →
  from_ = to_ ∨ reaches st to_ from_.
Proof.
  intros Hacyc. unfold wouldCreateCycle.
  destruct (String.eqb_spec from_ to_) as [|Hne]; [by left|].
  destruct (hasCycle _ _ _ _) as [[b m']|] eqn:Hrun; [|discriminate].
  intros ->. right.
  apply hasCycle_sound in Hrun as [c Hc]; simpl; [|set_solver].
  apply (tc_subrel _ (withEdge (edgeRel (edges st)) from_ to_)) in Hc.
  - apply tc_withEdge_cycle in Hc as [[d Hd]|Hr]; [by destruct (Hacyc d)|done].
  - intros a b [_ Hab]%succOf_adjacencyList. exact Hab.
Qed.

End SearchFacts.

(** ** The handlers, one by one *)

Lemma elem_of_List_filter {A} (f : A → bool) (l : list A) a :
  a ∈ List.filter f l ↔ a ∈ l ∧ f a = true.
Proof. rewrite !list_elem_of_In. apply filter_In. Qed.

Lemma sameEdge_true e from_ to_ :
  String.eqb (from e) from_ && String.eqb (to e) to_ = true ↔ e = mkEdge from_ to_.
Proof.
  destruct e as [f t]; simpl.
  rewrite andb_true_iff, !String.eqb_eq. naive_solver.
Qed.

(** The duplicate test of [addEdge] is membership in the edge list. *)
Lemma existsb_sameEdge es from_ to_ :
  existsb (λ e, String.eqb (from e) from_ && String.eqb (to e) to_) es
  = bool_decide (mkEdge from_ to_ ∈ es).
Proof.
  apply eq_true_iff_eq. rewrite existsb_exists, bool_decide_eq_true. split.
  - intros (e & He%list_elem_of_In & ->%sameEdge_true). done.
  - intros He. exists (mkEdge from_ to_). rewrite <- list_elem_of_In.
    split; [done|]. by apply sameEdge_true.
Qed.

Lemma edges_deleteNode nodeId st e :
  e ∈ edges (snd (deleteNode nodeId st))
  ↔ e ∈ edges st ∧ from e ≠ nodeId ∧ to e ≠ nodeId.
Proof.
  simpl. rewrite elem_of_List_filter, andb_true_iff, !negb_true_iff, !String.eqb_neq.
  done.
Qed.

Lemma nodes_deleteNode nodeId st n :
  n ∈ nodes (snd (deleteNode nodeId st)) ↔ n ∈ nodes st ∧ id n ≠ nodeId.
Proof. simpl. by rewrite elem_of_List_filter, negb_true_iff, String.eqb_neq. Qed.

Lemma edges_deleteEdge from_ to_ st e :
  e ∈ edges (snd (deleteEdge from_ to_ st)) ↔ e ∈ edges st ∧ e ≠ mkEdge from_ to_.
Proof.
  simpl. rewrite elem_of_List_filter, negb_true_iff, <- not_true_iff_false.
  by rewrite sameEdge_true.
Qed.

Lemma nodeIds_handleMouseMove selectedNode x_ y_ st :
  nodeIds (snd (handleMouseMove selectedNode x_ y_ st)) = nodeIds st.
Proof.
  unfold nodeIds; simpl. rewrite <- list_fmap_compose.
  apply list_fmap_ext. intros _ n _. simpl. by destruct (String.eqb _ _).
Qed.

(** *** What the handlers keep *)

Lemma keeps_refl st : keeps st st.
Proof. by split. Qed.

Lemma keeps_acyclic st st' : keeps st st' → acyclic st → acyclic st'.
Proof.
  intros [Hsub _]. destruct st, st'. by apply acyclic_subset.
Qed.

Lemma keeps_sourcesExist st st' :
  keeps st st' → sourcesExist st → sourcesExist st'.
Proof.
  intros [Hsub Hids] Hsrc e He. apply (Hids e); [done|by left|].
  by apply Hsrc, Hsub.
Qed.

Lemma keeps_noDangling st st' : keeps st st' → noDangling st → noDangling st'.
Proof.
  intros [Hsub Hids] Hdang e He. destruct (Hdang e (Hsub e He)) as [Hf Ht].
  split; apply (Hids e); auto.
Qed.

Lemma noDangling_sourcesExist st : noDangling st → sourcesExist st.
Proof. intros Hdang e He. by destruct (Hdang e He). Qed.

Lemma addNode_keeps now r1 r2 newNodeLabel st :
  keeps st (snd (addNode now r1 r2 newNodeLabel st)).
Proof.
  unfold addNode. destruct (String.eqb _ _); [apply keeps_refl|].
  split; simpl; [done|]. intros e i _ _ Hi.
  unfold nodeIds in *; simpl. rewrite fmap_app. set_solver.
Qed.

Lemma deleteNode_keeps nodeId st : keeps st (snd (deleteNode nodeId st)).
Proof.
  split.
  - intros e. by intros [? _]%edges_deleteNode.
  - intros e i (He & Hf & Ht)%edges_deleteNode Hi (n & Hn & Hin)%list_elem_of_fmap.
    apply list_elem_of_fmap. exists n. split; [done|].
    apply nodes_deleteNode. split; [done|]. destruct Hi; congruence.
Qed.

Lemma deleteEdge_keeps from_ to_ st : keeps st (snd (deleteEdge from_ to_ st)).
Proof.
  split; [|done]. intros e. by intros [? _]%edges_deleteEdge.
Qed.

Lemma handleMouseMove_keeps selectedNode x_ y_ st :
  keeps st (snd (handleMouseMove selectedNode x_ y_ st)).
Proof.
  split; [done|]. intros e i _ _ Hi. by rewrite nodeIds_handleMouseMove.
Qed.

Lemma clearGraph_keeps st : keeps st (snd (clearGraph st)).
Proof.
  split; simpl.
  - intros e He. by apply elem_of_nil in He.
  - intros e i He. by apply elem_of_nil in He.
Qed.

(** [addEdge] leaves the state as it is, or appends the edge after the
    cycle check has answered [false]. *)
Lemma addEdge_outcome from_ to_ st :
  snd (addEdge from_ to_ st) = st
  ∨ (snd (addEdge from_ to_ st)
     = mkState (nodes st) (edges st ++ [mkEdge from_ to_])
     ∧ wouldCreateCycle st from_ to_ = false).
Proof.
  unfold addEdge. destruct (existsb _ _); [by left|].
  destruct (wouldCreateCycle st from_ to_); [by left|by right].
Qed.

(** *** Invariants of a step *)

Lemma step_acyclic c st :
  sourceIsNode c st = true →
  acyclic st ∧ sourcesExist st →
  acyclic (snd (step c st)) ∧ sourcesExist (snd (step c st)).
Proof.
  assert (∀ st', keeps st st' → acyclic st ∧ sourcesExist st →
                 acyclic st' ∧ sourcesExist st') as Hkeeps.
  { intros st' Hk [Hacyc Hsrc].
    split; [by eapply keeps_acyclic|by eapply keeps_sourcesExist]. }
  destruct c as [now r1 r2 lbl|nodeId|from_ to_|from_ to_|sel x_ y_|]; simpl;
    intros Hnames.
  - apply Hkeeps, addNode_keeps.
  - apply Hkeeps, deleteNode_keeps.
  - apply bool_decide_eq_true in Hnames. intros [Hacyc Hsrc].
    destruct (addEdge_outcome from_ to_ st) as [->|[-> Hcheck]]; [done|].
    apply SearchFacts.wouldCreateCycle_false in Hcheck as [Hne Hreach]; [|done..].
    destruct st as [ns es]. split; simpl.
    + by apply acyclic_add_edge.
    + intros e [He|He%list_elem_of_singleton]%elem_of_app;
        [by apply Hsrc|by subst].
  - apply Hkeeps, deleteEdge_keeps.
  - apply Hkeeps, handleMouseMove_keeps.
  - apply Hkeeps, clearGraph_keeps.
Qed.

Lemma step_noDangling c st :
  namesNodes c st = true → noDangling st → noDangling (snd (step c st)).
Proof.
  destruct c as [now r1 r2 lbl|nodeId|from_ to_|from_ to_|sel x_ y_|]; simpl;
    intros Hnames.
  - apply keeps_noDangling, addNode_keeps.
  - apply keeps_noDangling, deleteNode_keeps.
  - apply andb_true_iff in Hnames as [Hf%bool_decide_eq_true Ht%bool_decide_eq_true].
    intros Hdang.
    destruct (addEdge_outcome from_ to_ st) as [->|[-> _]]; [done|].
    intros e [He|He%list_elem_of_singleton]%elem_of_app;
      [by apply Hdang|by subst].
  - apply keeps_noDangling, deleteEdge_keeps.
  - apply keeps_noDangling, handleMouseMove_keeps.
  - apply keeps_noDangling, clearGraph_keeps.
Qed.

(** *** Invariants of a run *)

Lemma run_invariant (P : DAGState → Prop) (p : Command → DAGState → bool) :
  (∀ c st, p c st = true → P st → P (snd (step c st))) →
  ∀ cmds st, throughout p cmds st = true → P st → P (run cmds st).
Proof.
  intros Hstep cmds. induction cmds as [|c cmds IH]; intros st Hp HP; [done|].
  simpl in Hp. apply andb_true_iff in Hp as [Hc Hrest].
  apply IH; [done|]. by apply Hstep.
Qed.

Lemma throughout_take p cmds :
  ∀ st k, throughout p cmds st = true → throughout p (take k cmds) st = true.
Proof.
  induction cmds as [|c cmds IH]; intros st [|k] Hp; try done.
  simpl in *. apply andb_true_iff in Hp as [Hc Hrest].
  rewrite Hc. by apply IH.
Qed.

Lemma emptyGraph_acyclic : acyclic emptyGraph.
Proof.
  intros a Ha. unfold onCycle, edgeRel in Ha; simpl in Ha.
  inversion Ha as [? ? He|? ? ? He]; by apply elem_of_nil in He.
Qed.

Lemma emptyGraph_noDangling : noDangling emptyGraph.
Proof. intros e He. by apply elem_of_nil in He. Qed.

Lemma List_filter_decide {A} (f : A → bool) (P : A → Prop)
    `{!∀ a, Decision (P a)} (l : list A) :
  (∀ a, f a = true ↔ P a) → List.filter f l = filter P l.
Proof.
  intros Hf. induction l as [|a l IH]; [done|].
  simpl. rewrite filter_cons, IH.
  destruct (f a) eqn:Hfa; case_decide as HP; try done.
  - by apply Hf in Hfa.
  - apply Hf in HP. congruence.
Qed.

(** A ranking that every edge increases rules out cycles. *)
Lemma acyclic_of_rank (rank : string → nat) st :
  Forall (λ e, rank (from e) < rank (to e)) (edges st) → acyclic st.
Proof.
  intros Hrank. pose proof (proj1 (Forall_forall _ _) Hrank) as Hrank'.
  clear Hrank. rename Hrank' into Hrank.
  assert (∀ a b, tc (edgeRel (edges st)) a b → rank a < rank b) as Hlt.
  { induction 1 as [a b Hab|a b c Hab _ IH].
    - apply (Hrank _ Hab).
    - specialize (Hrank _ Hab). simpl in Hrank. lia. }
  intros a Ha%Hlt. lia.
Qed.

Lemma noDangling_Forall st :
  Forall (λ e, from e ∈ nodeIds st ∧ to e ∈ nodeIds st) (edges st) → noDangling st.
Proof. intros H. exact (proj1 (Forall_forall _ _) H). Qed.

Lemma chainABC_acyclic : acyclic chainABC.
Proof.
  apply (acyclic_of_rank
           (λ s, match s with String c _ => Ascii.nat_of_ascii c | EmptyString => 0 end)).
  repeat (constructor; [vm_compute; lia|]). constructor.
Qed.

Lemma chainABC_noDangling : noDangling chainABC.
Proof. apply noDangling_Forall. by apply (bool_decide_unpack _); vm_compute. Qed.

(** *** The answers of [addEdge] *)

Lemma addEdge_cases from_ to_ st :
  addEdge from_ to_ st
  = if bool_decide (mkEdge from_ to_ ∈ edges st)
    then (setError msgDuplicateEdge, st)
    else if bool_decide (from_ = to_)
    then (setError msgWouldCreateCycle, st)
    else if wouldCreateCycle st from_ to_
    then (setError msgWouldCreateCycle, st)
    else (setSuccess msgEdgeAdded,
          mkState (nodes st) (edges st ++ [mkEdge from_ to_])).
Proof.
  unfold addEdge. rewrite existsb_sameEdge.
  destruct (bool_decide (mkEdge from_ to_ ∈ edges st)); [done|].
  case_bool_decide as Heq; [|done].
  unfold wouldCreateCycle. by rewrite (proj2 (String.eqb_eq _ _) Heq).
Qed.



Lemma addEdge_success_present from_ to_ st :
  fst (addEdge from_ to_ st) = setSuccess msgEdgeAdded →
  mkEdge from_ to_ ∈ edges (snd (addEdge from_ to_ st)).
Proof.
  unfold addEdge. destruct (existsb _ _); [done|].
  destruct (wouldCreateCycle st from_ to_); [done|].
  simpl. set_solver.
Qed.


(** The closing edge of the chain is refused, a shortcut is not. *)
Example wouldCreateCycle_chain :
  wouldCreateCycle chainABC "C" "A" = true
  ∧ wouldCreateCycle chainABC "A" "C" = false.
Proof. split; by vm_compute. Qed.

(** Reaching D a second time along another path is not a cycle; an edge
    from D back to A is. *)
Example wouldCreateCycle_diamond :
  wouldCreateCycle diamond "E" "A" = false
  ∧ wouldCreateCycle diamond "D" "A" = true.
Proof. split; by vm_compute. Qed.

Example trim_examples :
  trim "  hi there  " = "hi there" ∧ trim "" = "" ∧ trim "   " = ""
  ∧ trim (String (Ascii.ascii_of_nat 9) (String (Ascii.ascii_of_nat 160) "x")) = "x".
Proof. repeat split; by vm_compute. Qed.

(** * The claims *)

(** ** The cycle check *)

(** C5. In a state whose edges are acyclic and connect existing nodes, and
    for existing nodes [u] and [v], [wouldCreateCycle u v] answers [true]
    exactly when [v] already reaches [u] along the current edges, or
    [u = v]. *)
Theorem C5_wouldCreateCycle_iff_reaches st u v :
  acyclic st → noDangling st → u ∈ nodeIds st → v ∈ nodeIds st →
  wouldCreateCycle st u v = true ↔ reaches st v u ∨ u = v.
Proof.
  intros Hacyc Hdang Hu _. split.
  - intros [->|Hr]%SearchFacts.wouldCreateCycle_true; [by right|by left|done].
  - intros Hr. destruct (wouldCreateCycle st u v) eqn:Hcheck; [done|].
    apply SearchFacts.wouldCreateCycle_false in Hcheck as [Hne Hnr];
      [|by apply noDangling_sourcesExist|done].
    by destruct Hr.
Qed.

Lemma C5_witness :
  wouldCreateCycle chainABC "C" "A" = true ↔ reaches chainABC "A" "C" ∨ "C" = "A".
Proof.
  apply (C5_wouldCreateCycle_iff_reaches chainABC "C" "A").
  - apply chainABC_acyclic.
  - apply chainABC_noDangling.
  - by apply (bool_decide_unpack _); vm_compute.
  - by apply (bool_decide_unpack _); vm_compute.
Defined.

(** ** Acyclicity and dangling edges over runs *)

(** C1, as the code has it. From the empty graph, after every prefix of a
    sequence of commands in which the [from] of each [addEdge] names a node
    of the state the command is issued in, the graph has no directed
    cycle. *)
Theorem C1_acyclic_when_sources_exist cmds :
  throughout sourceIsNode cmds emptyGraph = true →
  ∀ k, acyclic (run (take k cmds) emptyGraph).
Proof.
  intros Hnames k.
  apply (run_invariant (λ st, acyclic st ∧ sourcesExist st) sourceIsNode
           step_acyclic (take k cmds) emptyGraph).
  - by apply throughout_take.
  - split; [apply emptyGraph_acyclic|].
    apply noDangling_sourcesExist, emptyGraph_noDangling.
Qed.

Lemma C1_witness :
  throughout sourceIsNode sampleSession emptyGraph = true
  ∧ acyclic (run (take 6 sampleSession) emptyGraph).
Proof.
  split; [by vm_compute|].
  apply (C1_acyclic_when_sources_exist sampleSession). by vm_compute.
Defined.

(** C1 fails as stated: [addEdge] accepts ids that name no node, and the
    search does not follow edges that leave such an id. Four successful
    commands give a graph whose two nodes lie on a cycle. *)
Lemma C1_counterexample :
  throughout succeeds earlyEdges emptyGraph = true
  ∧ nodeIds (run earlyEdges emptyGraph) = ["node-1"; "node-2"]
  ∧ edges (run earlyEdges emptyGraph)
    = [mkEdge "node-1" "node-2"; mkEdge "node-2" "node-1"]
  ∧ onCycle (run earlyEdges emptyGraph) "node-1"
  ∧ ¬ acyclic (run earlyEdges emptyGraph).
Proof.
  split; [by vm_compute|]. split; [by vm_compute|].
  assert (edges (run earlyEdges emptyGraph)
          = [mkEdge "node-1" "node-2"; mkEdge "node-2" "node-1"]) as Hedges
    by (by vm_compute).
  split; [done|].
  assert (onCycle (run earlyEdges emptyGraph) "node-1") as Hcycle.
  { unfold onCycle. rewrite Hedges.
    apply tc_l with "node-2"; [|apply tc_once]; unfold edgeRel; set_solver. }
  split; [done|]. intros Hacyc. exact (Hacyc _ Hcycle).
Qed.

(** C4, as the code has it. From the empty graph, after every prefix of a
    sequence of commands in which each [addEdge] names two nodes of the
    state it is issued in, both endpoints of every edge are ids of nodes
    of the graph. *)
Theorem C4_no_dangling_when_edges_name_nodes cmds :
  throughout namesNodes cmds emptyGraph = true →
  ∀ k, noDangling (run (take k cmds) emptyGraph).
Proof.
  intros Hnames k.
  apply (run_invariant noDangling namesNodes step_noDangling).
  - by apply throughout_take.
  - apply emptyGraph_noDangling.
Qed.

Lemma C4_witness :
  throughout namesNodes sampleSession emptyGraph = true
  ∧ noDangling (run (take 7 sampleSession) emptyGraph).
Proof.
  split; [by vm_compute|].
  apply (C4_no_dangling_when_edges_name_nodes sampleSession). by vm_compute.
Defined.

(** C4 fails as stated: [addEdge] does not look at the node list, so an
    edge between two ids that name no node is accepted. *)
Lemma C4_counterexample :
  throughout succeeds [cmdAddEdge "a" "b"] emptyGraph = true
  ∧ addEdge "a" "b" emptyGraph
    = (setSuccess msgEdgeAdded, mkState [] [mkEdge "a" "b"])
  ∧ mkEdge "a" "b" ∈ edges (run [cmdAddEdge "a" "b"] emptyGraph)
  ∧ ("a" ∉ nodeIds (run [cmdAddEdge "a" "b"] emptyGraph))
  ∧ ¬ noDangling (run [cmdAddEdge "a" "b"] emptyGraph).
Proof.
  assert (mkEdge "a" "b" ∈ edges (run [cmdAddEdge "a" "b"] emptyGraph)) as Hedge
    by (by apply (bool_decide_unpack _); vm_compute).
  assert ("a" ∉ nodeIds (run [cmdAddEdge "a" "b"] emptyGraph)) as Hnode
    by (by apply (bool_decide_unpack _); vm_compute).
  split; [by vm_compute|]. split; [by vm_compute|].
  split; [done|]. split; [done|].
  intros Hdang. by destruct (Hdang _ Hedge) as [Hfrom _].
Qed.

(** ** [addEdge] *)

(** C3, as the code has it. [addEdge] makes two checks, in this order: the
    duplicate check ("Edge already exists"), then the cycle check, which
    also answers for [from = to] ("Cannot add edge: would create a cycle").
    Whether the endpoints name nodes is not checked, and a self-loop has no
    error of its own. The edge is appended only when both checks pass. *)
Theorem C3_addEdge_check_order from_ to_ st :
  addEdge from_ to_ st
  = if bool_decide (mkEdge from_ to_ ∈ edges st)
    then (setError msgDuplicateEdge, st)
    else if bool_decide (from_ = to_)
    then (setError msgWouldCreateCycle, st)
    else if wouldCreateCycle st from_ to_
    then (setError msgWouldCreateCycle, st)
    else (setSuccess msgEdgeAdded,
          mkState (nodes st) (edges st ++ [mkEdge from_ to_])).
Proof. apply addEdge_cases. Qed.

(** C3 fails as stated: for the existing node A, [addEdge A A] is answered
    with the cycle error where the specification has [SelfLoop]; and an
    edge between ids that name no node is accepted where the specification
    has [UnknownNode]. *)
Lemma C3_counterexample :
  "A" ∈ nodeIds chainABC
  ∧ addEdge "A" "A" chainABC = (setError msgWouldCreateCycle, chainABC)
  ∧ verdictOf (fst (addEdge "A" "A" chainABC)) = Some WouldCreateCycle
  ∧ addEdge_spec "A" "A" chainABC = SelfLoop
  ∧ verdictOf (fst (addEdge "A" "A" chainABC)) ≠ Some (addEdge_spec "A" "A" chainABC)
  ∧ verdictOf (fst (addEdge "a" "b" emptyGraph)) = Some Accepted
  ∧ addEdge_spec "a" "b" emptyGraph = UnknownNode.
Proof.
  split; [by apply (bool_decide_unpack _); vm_compute|].
  repeat split; by vm_compute.
Qed.

(** ** Failing calls *)




(** ** [deleteNode] and [deleteEdge] *)

(** C8. [deleteNode id] is one transition of the state: the nodes that
    remain are those whose id differs from [id], the edges that remain are
    those with neither endpoint equal to [id], both in their order; after
    it no node has the id and no edge touches it. On nodes A, B, C with
    edges A→B and B→C, deleting B leaves the nodes A and C and no edge. *)
Theorem C8_deleteNode_cascades nodeId st :
  deleteNode nodeId st
  = (noFeedback,
     mkState (filter (λ n, id n ≠ nodeId) (nodes st))
             (filter (λ e, from e ≠ nodeId ∧ to e ≠ nodeId) (edges st)))
  ∧ (nodeId ∉ nodeIds (snd (deleteNode nodeId st)))
  ∧ (∀ e, e ∈ edges (snd (deleteNode nodeId st)) →
          e ∈ edges st ∧ from e ≠ nodeId ∧ to e ≠ nodeId)
  ∧ deleteNode "B" chainABC = (noFeedback, mkState [nodeA; nodeC] []).
Proof.
  split; [|split; [|split]].
  - unfold deleteNode. f_equal. f_equal.
    + apply List_filter_decide. intros n.
      by rewrite negb_true_iff, String.eqb_neq.
    + apply List_filter_decide. intros e.
      by rewrite andb_true_iff, !negb_true_iff, !String.eqb_neq.
  - intros (n & Hid & [_ Hn]%nodes_deleteNode)%list_elem_of_fmap. congruence.
  - intros e. by apply edges_deleteNode.
  - by vm_compute.
Qed.

(** C9, as the code has it. For an id that no node has, [deleteNode id]
    reports nothing, error or success, and keeps the node list; when no
    edge is dangling it keeps the whole state. *)
Theorem C9_deleteNode_absent_is_silent nodeId st :
  nodeId ∉ nodeIds st →
  fst (deleteNode nodeId st) = noFeedback
  ∧ nodes (snd (deleteNode nodeId st)) = nodes st
  ∧ (noDangling st → snd (deleteNode nodeId st) = st).
Proof.
  intros Habsent.
  assert (List.filter (λ n, negb (String.eqb (id n) nodeId)) (nodes st) = nodes st)
    as Hnodes.
  { apply forallb_filter_id, forallb_forall. intros n Hn%list_elem_of_In.
    apply negb_true_iff, String.eqb_neq. intros Hid. apply Habsent.
    apply list_elem_of_fmap. by exists n. }
  split; [done|]. split; [done|]. intros Hdang.
  destruct st as [ns es]. unfold deleteNode. simpl in *. rewrite Hnodes.
  f_equal. apply forallb_filter_id, forallb_forall. intros e He%list_elem_of_In.
  destruct (Hdang e He) as [Hf Ht].
  rewrite andb_true_iff, !negb_true_iff, !String.eqb_neq.
  split; intros Heq; apply Habsent; by rewrite <- Heq.
Qed.

Lemma C9_witness :
  ("Z" ∉ nodeIds chainABC)
  ∧ fst (deleteNode "Z" chainABC) = noFeedback
  ∧ nodes (snd (deleteNode "Z" chainABC)) = nodes chainABC
  ∧ snd (deleteNode "Z" chainABC) = chainABC.
Proof.
  assert ("Z" ∉ nodeIds chainABC) as Habsent
    by (by apply (bool_decide_unpack _); vm_compute).
  destruct (C9_deleteNode_absent_is_silent "Z" chainABC Habsent)
    as (Hfb & Hnodes & Hsame).
  split; [done|]. split; [done|]. split; [done|].
  apply Hsame, chainABC_noDangling.
Defined.

(** C9 fails as stated: [deleteNode] has no error path, so for an id that
    no node has the call is not answered with an error. *)
Lemma C9_counterexample :
  ("Z" ∉ nodeIds chainABC)
  ∧ isError (fst (deleteNode "Z" chainABC)) = false
  ∧ deleteNode "Z" chainABC = (noFeedback, chainABC).
Proof.
  split; [by apply (bool_decide_unpack _); vm_compute|]. split; by vm_compute.
Qed.

(** C10. [deleteEdge from to] reports nothing, keeps the node list, and
    keeps exactly the edges other than [from → to], in their order; when
    there is no such edge the state is unchanged. *)
Theorem C10_deleteEdge_frame from_ to_ st :
  fst (deleteEdge from_ to_ st) = noFeedback
  ∧ nodes (snd (deleteEdge from_ to_ st)) = nodes st
  ∧ edges (snd (deleteEdge from_ to_ st))
    = filter (λ e, e ≠ mkEdge from_ to_) (edges st)
  ∧ (mkEdge from_ to_ ∈ edges st ∨ snd (deleteEdge from_ to_ st) = st).
Proof.
  split; [done|]. split; [done|].
  assert (edges (snd (deleteEdge from_ to_ st))
          = filter (λ e, e ≠ mkEdge from_ to_) (edges st)) as Hedges.
  { simpl. apply List_filter_decide. intros e.
    by rewrite negb_true_iff, <- not_true_iff_false, sameEdge_true. }
  split; [done|].
  destruct (decide (mkEdge from_ to_ ∈ edges st)) as [Hin|Hout]; [by left|right].
  destruct st as [ns es]. unfold deleteEdge. simpl in *. do 2 f_equal.
  apply forallb_filter_id, forallb_forall. intros e He%list_elem_of_In.
  rewrite negb_true_iff, <- not_true_iff_false, sameEdge_true. by intros ->.
Qed.

(** ** Import *)

(** C2, as the code has it. Import validates nothing: whatever graph the
    file parses to replaces the state whole and is reported as a success,
    dangling edges, duplicate edges and cycles included; only a file that
    does not parse is answered with an error ("Invalid file format"), and
    then the state is the one before. *)
Theorem C2_import_adopts_what_parses :
  (∀ imported st,
     importGraph (parsedState imported) st = (setSuccess msgImported, imported))
  ∧ (∀ st, importGraph syntaxError st = (setError msgInvalidFile, st))
  ∧ (∀ parsed st,
       snd (importGraph parsed st) = st ∨ parsed = parsedState (snd (importGraph parsed st))).
Proof.
  split; [done|]. split; [done|]. intros [imported|] st; [by right|by left].
Qed.

(** C2 fails as stated: a document with an edge to a node id that does not
    exist is imported with success, and replaces the graph that was loaded. *)
Lemma C2_counterexample :
  mkEdge "A" "ghost" ∈ edges danglingDocument
  ∧ ("ghost" ∉ nodeIds danglingDocument)
  ∧ importGraph (parsedState danglingDocument) chainABC
    = (setSuccess msgImported, danglingDocument)
  ∧ isError (fst (importGraph (parsedState danglingDocument) chainABC)) = false
  ∧ snd (importGraph (parsedState danglingDocument) chainABC) ≠ chainABC.
Proof.
  split; [by apply (bool_decide_unpack _); vm_compute|].
  split; [by apply (bool_decide_unpack _); vm_compute|].
  split; [done|]. split; [done|]. simpl. discriminate.
Qed.

(** * More of the component *)

(** ** Edges over runs *)

Lemma run_always (P : DAGState → Prop) :
  (∀ c st, P st → P (snd (step c st))) →
  ∀ cmds st, P st → P (run cmds st).
Proof.
  intros Hstep cmds. induction cmds as [|c cmds IH]; intros st HP; [done|].
  apply IH. by apply Hstep.
Qed.

(** What a step does to the edge list: it filters it, or appends an edge
    that was not there and is not a self-loop. *)
Lemma step_edges c st :
  (∃ f, edges (snd (step c st)) = List.filter f (edges st))
  ∨ (∃ from_ to_, edges (snd (step c st)) = edges st ++ [mkEdge from_ to_]
                  ∧ (mkEdge from_ to_ ∉ edges st) ∧ from_ ≠ to_).
Proof.
  assert (∃ f, edges st = List.filter f (edges st)) as Hsame.
  { exists (λ _, true). symmetry. by apply forallb_filter_id, forallb_forall. }
  destruct c as [now r1 r2 lbl|nodeId|from_ to_|from_ to_|sel x_ y_|]; simpl.
  - left. unfold addNode. destruct (String.eqb _ _); exact Hsame.
  - left. eexists. reflexivity.
  - rewrite addEdge_cases. repeat case_bool_decide; try by left.
    destruct (wouldCreateCycle st from_ to_); [by left|].
    right. by exists from_, to_.
  - left. eexists. reflexivity.
  - by left.
  - left. exists (λ _, false). simpl. generalize (edges st).
    intros l. by induction l.
Qed.

(** X1. Whatever commands are issued from the empty graph, the edge list
    never holds the same directed edge twice. *)
Theorem X1_edges_stay_unique cmds : NoDup (edges (run cmds emptyGraph)).
Proof.
  apply (run_always (λ st, NoDup (edges st))); [|constructor].
  intros c st Hnodup.
  destruct (step_edges c st) as [[f ->]|(from_ & to_ & -> & Hnew & _)].
  - rewrite (List_filter_decide f (λ e, f e = true)) by done.
    by apply NoDup_filter.
  - apply NoDup_app. split; [done|]. split; [|apply NoDup_singleton].
    intros e He ->%list_elem_of_singleton. done.
Qed.

(** X2. Whatever commands are issued from the empty graph, no edge of the
    graph goes from a node to itself. *)
Theorem X2_no_self_loop cmds :
  Forall (λ e, from e ≠ to e) (edges (run cmds emptyGraph)).
Proof.
  apply Forall_forall.
  apply (run_always (λ st, ∀ e, e ∈ edges st → from e ≠ to e)).
  - intros c st Hloops e.
    destruct (step_edges c st) as [[f ->]|(from_ & to_ & -> & _ & Hne)].
    + intros [He _]%elem_of_List_filter. by apply Hloops.
    + intros [He|He%list_elem_of_singleton]%elem_of_app;
        [by apply Hloops|by subst].
  - intros e He. by apply elem_of_nil in He.
Qed.

(** ** [addEdge] on any graph *)

Lemma tc_withEdge_inv {A} (R : relation A) u v a b :
  tc (withEdge R u v) a b → tc R a b ∨ (rtc R a u ∧ rtc R v b).
Proof.
  induction 1 as [a b [Hab|[-> ->]]|a a' b [Haa'|[-> ->]] Hrest IH].
  - left. by apply tc_once.
  - by right.
  - destruct IH as [IH|[IH1 IH2]].
    + left. by eapply tc_l.
    + right. split; [by eapply rtc_l|done].
  - right. split; [done|]. destruct IH as [IH|[_ IH2]]; [by apply tc_rtc|done].
Qed.

(** X3. On any graph whose edges leave existing nodes, cyclic ones
    included, an [addEdge] whose [from] names a node creates no cycle: a
    node that lies on a cycle afterwards lay on one before. *)
Theorem X3_addEdge_creates_no_cycle from_ to_ st a :
  sourcesExist st → from_ ∈ nodeIds st →
  onCycle (snd (addEdge from_ to_ st)) a → onCycle st a.
Proof.
  intros Hsrc Hfrom.
  destruct (addEdge_outcome from_ to_ st) as [->|[-> Hcheck]]; [done|].
  apply SearchFacts.wouldCreateCycle_false in Hcheck as [Hne Hreach]; [|done..].
  unfold onCycle; simpl. intros Hc.
  apply (tc_subrel _ (withEdge (edgeRel (edges st)) from_ to_)) in Hc;
    [|intros x y; by apply edgeRel_app].
  apply tc_withEdge_inv in Hc as [Hc|[Hau Hva]]; [done|].
  destruct Hreach. unfold reaches. by etrans.
Qed.

Lemma X3_witness :
  sourcesExist loopAB ∧ "C" ∈ nodeIds loopAB
  ∧ fst (addEdge "C" "D" loopAB) = setSuccess msgEdgeAdded
  ∧ (onCycle (snd (addEdge "C" "D" loopAB)) "A" → onCycle loopAB "A").
Proof.
  assert (sourcesExist loopAB) as Hsrc.
  { apply noDangling_sourcesExist, noDangling_Forall.
    by apply (bool_decide_unpack _); vm_compute. }
  assert ("C" ∈ nodeIds loopAB) as Hfrom
    by (by apply (bool_decide_unpack _); vm_compute).
  split; [done|]. split; [done|]. split; [by vm_compute|].
  exact (X3_addEdge_creates_no_cycle "C" "D" loopAB "A" Hsrc Hfrom).
Defined.

(** X4. When [from] names no node, the cycle check answers [false] for
    every other target, whatever the edges are: [addEdge] then refuses
    only an edge that is already there. *)
Theorem X4_unknown_source_is_not_checked from_ to_ st :
  from_ ∉ nodeIds st → from_ ≠ to_ →
  wouldCreateCycle st from_ to_ = false
  ∧ addEdge from_ to_ st
    = if bool_decide (mkEdge from_ to_ ∈ edges st)
      then (setError msgDuplicateEdge, st)
      else (setSuccess msgEdgeAdded,
            mkState (nodes st) (edges st ++ [mkEdge from_ to_])).
Proof.
  intros Hfrom Hne.
  assert (wouldCreateCycle st from_ to_ = false) as Hcheck.
  { unfold wouldCreateCycle. rewrite (proj2 (String.eqb_neq _ _) Hne).
    unfold CycleCheck.budget. simpl.
    rewrite SearchFacts.lookup_adjacencyList, decide_False by done. done. }
  split; [done|]. rewrite addEdge_cases, Hcheck.
  by rewrite (bool_decide_false (from_ = to_)).
Qed.

Lemma X4_witness :
  ("Z" ∉ nodeIds chainABC) ∧ "Z" ≠ "A"
  ∧ wouldCreateCycle chainABC "Z" "A" = false
  ∧ addEdge "Z" "A" chainABC
    = (setSuccess msgEdgeAdded,
       mkState (nodes chainABC) (edges chainABC ++ [mkEdge "Z" "A"])).
Proof.
  assert ("Z" ∉ nodeIds chainABC) as Hfrom
    by (by apply (bool_decide_unpack _); vm_compute).
  assert ("Z" ≠ "A") as Hne by done.
  destruct (X4_unknown_source_is_not_checked "Z" "A" chainABC Hfrom Hne)
    as [Hcheck Hadd].
  split; [done|]. split; [done|]. split; [done|].
  rewrite Hadd. by vm_compute.
Defined.

(** X5. An edge that [addEdge] has added is taken out again by
    [deleteEdge], and the state is the one before the two calls. *)
Theorem X5_deleteEdge_undoes_addEdge from_ to_ st :
  fst (addEdge from_ to_ st) = setSuccess msgEdgeAdded →
  snd (deleteEdge from_ to_ (snd (addEdge from_ to_ st))) = st.
Proof.
  rewrite addEdge_cases. case_bool_decide as Hin; [done|].
  case_bool_decide; [done|].
  destruct (wouldCreateCycle st from_ to_); [done|]. intros _.
  destruct st as [ns es]. unfold deleteEdge. simpl in *. f_equal.
  rewrite List.filter_app. simpl.
  rewrite !String.eqb_refl. simpl. rewrite app_nil_r. apply forallb_filter_id, forallb_forall.
  intros e He%list_elem_of_In.
  rewrite negb_true_iff, <- not_true_iff_false, sameEdge_true. by intros ->.
Qed.

Lemma X5_witness :
  fst (addEdge "A" "C" chainABC) = setSuccess msgEdgeAdded
  ∧ snd (deleteEdge "A" "C" (snd (addEdge "A" "C" chainABC))) = chainABC.
Proof.
  assert (fst (addEdge "A" "C" chainABC) = setSuccess msgEdgeAdded) as Hok
    by (by vm_compute).
  split; [done|]. exact (X5_deleteEdge_undoes_addEdge "A" "C" chainABC Hok).
Defined.

(** ** Deletions *)

Lemma List_filter_filter {A} (f g : A → bool) (l : list A) :
  List.filter f (List.filter g l) = List.filter (λ a, g a && f a) l.
Proof.
  induction l as [|a l IH]; [done|]. simpl.
  destruct (g a); simpl; [|done]. destruct (f a); by rewrite IH.
Qed.

Lemma List_filter_swap {A} (f g : A → bool) (l : list A) :
  List.filter f (List.filter g l) = List.filter g (List.filter f l).
Proof.
  rewrite !List_filter_filter. apply List.filter_ext. intros a. apply andb_comm.
Qed.

Lemma List_filter_twice {A} (f : A → bool) (l : list A) :
  List.filter f (List.filter f l) = List.filter f l.
Proof.
  rewrite List_filter_filter. apply List.filter_ext. intros a. by destruct (f a).
Qed.

(** X6. Deletions can be issued in any order and repeated: two
    [deleteNode], two [deleteEdge], or one of each, give the same state in
    either order, and a deletion issued twice gives the state of the first. *)
Theorem X6_deletions_commute a b from_ to_ from' to' st :
  snd (deleteNode a (snd (deleteNode b st)))
  = snd (deleteNode b (snd (deleteNode a st)))
  ∧ snd (deleteEdge from_ to_ (snd (deleteEdge from' to' st)))
    = snd (deleteEdge from' to' (snd (deleteEdge from_ to_ st)))
  ∧ snd (deleteNode a (snd (deleteEdge from_ to_ st)))
    = snd (deleteEdge from_ to_ (snd (deleteNode a st)))
  ∧ snd (deleteNode a (snd (deleteNode a st))) = snd (deleteNode a st)
  ∧ snd (deleteEdge from_ to_ (snd (deleteEdge from_ to_ st)))
    = snd (deleteEdge from_ to_ st).
Proof.
  unfold deleteNode, deleteEdge; simpl. repeat split; f_equal;
    auto using List_filter_swap, List_filter_twice.
Qed.

(** ** The search on any graph *)

Lemma forNeighbors_mono (visit visit' : string → CycleCheck.Marks → option (bool * CycleCheck.Marks)) :
  (∀ k m r, visit k m = Some r → visit' k m = Some r) →
  ∀ ns m r, CycleCheck.forNeighbors visit ns m = Some r →
            CycleCheck.forNeighbors visit' ns m = Some r.
Proof.
  intros Hext ns. induction ns as [|k ns IH]; intros m r Hrun; [done|].
  simpl in *. destruct (decide (k ∉ CycleCheck.visited m)).
  - destruct (visit k m) as [[[] m1]|] eqn:Hv; [| |done];
      rewrite (Hext _ _ _ Hv); [done|by apply IH].
  - destruct (decide (k ∈ CycleCheck.recStack m)); [done|by apply IH].
Qed.

Lemma hasCycle_more_fuel adj fuel extra :
  ∀ n m r, CycleCheck.hasCycle fuel adj n m = Some r →
           CycleCheck.hasCycle (fuel + extra) adj n m = Some r.
Proof.
  induction fuel as [|fuel IH]; intros n m r Hrun; [done|].
  simpl in *.
  destruct (CycleCheck.forNeighbors (CycleCheck.hasCycle fuel adj) _ _)
    as [r1|] eqn:Hloop; [|done].
  by rewrite (forNeighbors_mono _ _ IH _ _ _ Hloop).
Qed.

(** X7. On every state, cyclic or with dangling edges as an import can
    leave it, and for every pair of ids, the search of [wouldCreateCycle]
    comes to an answer within its budget, and the answer is the same with
    any larger budget. *)
Theorem X7_search_terminates st from_ to_ :
  ∃ b m', ∀ extra,
    CycleCheck.hasCycle (CycleCheck.budget st + extra)
      (CycleCheck.adjacencyList st from_ to_) from_ (CycleCheck.mkMarks ∅ ∅)
    = Some (b, m').
Proof.
  destruct (SearchFacts.hasCycle_budget_enough st from_ to_) as (b & m' & Hrun).
  exists b, m'. intros extra. by apply hasCycle_more_fuel.
Qed.

(** ** Moving a node *)

(** X8. Moving a node changes coordinates only: ids, labels and edges are
    the same, in the same order; every node with another id is as it was;
    every node with the id is at the new place; and with an id that names
    no node the state is unchanged. *)
Theorem X8_move_changes_coordinates_only selectedNode x_ y_ st :
  let st' := snd (handleMouseMove selectedNode x_ y_ st) in
  nodeIds st' = nodeIds st
  ∧ label <$> nodes st' = label <$> nodes st
  ∧ edges st' = edges st
  ∧ List.filter (λ n, negb (String.eqb (id n) selectedNode)) (nodes st')
    = List.filter (λ n, negb (String.eqb (id n) selectedNode)) (nodes st)
  ∧ (∀ n, n ∈ nodes st' → id n = selectedNode → x n = x_ ∧ y n = y_)
  ∧ (selectedNode ∈ nodeIds st ∨ st' = st).
Proof.
  intros st'. split; [apply nodeIds_handleMouseMove|].
  split; [|split; [done|split; [|split]]].
  - subst st'. simpl. rewrite <- list_fmap_compose.
    apply list_fmap_ext. intros _ n _. simpl. by destruct (String.eqb _ _).
  - subst st'. simpl. induction (nodes st) as [|n ns IH]; [done|].
    rewrite fmap_cons. simpl.
    destruct (String.eqb (id n) selectedNode) eqn:Hid; simpl; rewrite Hid; simpl;
      by rewrite IH.
  - subst st'. simpl. intros n (n0 & -> & Hn0)%list_elem_of_fmap.
    destruct (String.eqb (id n0) selectedNode) eqn:Hid; simpl; [done|].
    intros Heq. apply String.eqb_neq in Hid. done.
  - destruct (decide (selectedNode ∈ nodeIds st)) as [Hin|Hout]; [by left|right].
    subst st'. destruct st as [ns es]. unfold handleMouseMove. simpl. f_equal.
    rewrite <- (list_fmap_id ns) at 2. apply list_fmap_ext. intros i n Hn.
    destruct (String.eqb (id n) selectedNode) eqn:Hid; [|done].
    apply String.eqb_eq in Hid. destruct Hout. unfold nodeIds. simpl.
    apply list_elem_of_fmap. exists n. split; [done|].
    by eapply list_elem_of_lookup_2.
Qed.

(** ** Drawing the edges *)

Lemma findNode_is_Some st nodeId :
  is_Some (findNode st nodeId) ↔ nodeId ∈ nodeIds st.
Proof.
  unfold findNode, nodeIds. split.
  - intros [n Hn]. apply List.find_some in Hn as [Hin Hid].
    apply String.eqb_eq in Hid. apply list_elem_of_fmap. exists n.
    split; [done|]. by apply list_elem_of_In.
  - intros (n & -> & Hin)%list_elem_of_fmap.
    destruct (List.find _ _) as [n'|] eqn:Hfind; [by eexists|].
    apply list_elem_of_In in Hin.
    pose proof (List.find_none _ _ Hfind n Hin) as Hid. simpl in Hid.
    by rewrite String.eqb_refl in Hid.
Qed.

(** X11. The render draws one entry per edge, and it draws a line for
    every edge exactly when no edge is dangling; a line that is drawn
    runs between two nodes that have the ids of the edge. *)
Theorem X11_edges_drawn_iff_no_dangling st :
  length (drawEdges st) = length (edges st)
  ∧ (Forall is_Some (drawEdges st) ↔ noDangling st)
  ∧ (∀ i e l, edges st !! i = Some e → drawEdges st !! i = Some (Some l) →
       ∃ fromNode toNode,
         fromNode ∈ nodes st ∧ toNode ∈ nodes st
         ∧ id fromNode = from e ∧ id toNode = to e
         ∧ l = mkLine (x fromNode) (y fromNode) (x toNode) (y toNode)).
Proof.
  split; [apply length_fmap|]. split.
  - unfold drawEdges. rewrite Forall_fmap, Forall_forall. unfold noDangling.
    apply forall_proper. intros e. apply forall_proper. intros He. simpl.
    rewrite <- !findNode_is_Some.
    destruct (findNode st (from e)), (findNode st (to e));
      unfold is_Some; naive_solver.
  - intros i e l He Hl. unfold drawEdges in Hl. rewrite list_lookup_fmap, He in Hl.
    simpl in Hl. unfold findNode in Hl.
    destruct (List.find _ _) as [fromNode|] eqn:Hf; [|done].
    destruct (List.find (λ n, String.eqb (id n) (to e)) _) as [toNode|] eqn:Ht;
      [|done].
    apply List.find_some in Hf as [Hfin Hfid], Ht as [Htin Htid].
    exists fromNode, toNode. rewrite !list_elem_of_In.
    apply String.eqb_eq in Hfid, Htid. by simplify_eq.
Qed.

(** ** Node ids *)

Lemma List_filter_sublist {A} (f : A → bool) (l : list A) :
  List.filter f l `sublist_of` l.
Proof.
  rewrite (List_filter_decide f (λ a, f a = true)) by done.
  apply sublist_filter.
Qed.

(** Only [addNode] adds to the ids; every other command keeps the ids that
    remain in their order. *)
Lemma step_nodeIds c st :
  nodeIds (snd (step c st)) `sublist_of` nodeIds st
  ∨ (∃ now r1 r2 lbl n, c = cmdAddNode now r1 r2 lbl
       ∧ nodes (snd (step c st)) = nodes st ++ [n]
       ∧ id n = "node-" +:+ pretty now).
Proof.
  destruct c as [now r1 r2 lbl|nodeId|from_ to_|from_ to_|sel x_ y_|]; cbn [step].
  - unfold addNode. destruct (String.eqb _ _); [by left|].
    right. by eexists now, r1, r2, lbl, _.
  - left. unfold nodeIds. simpl. apply fmap_sublist, List_filter_sublist.
  - left. by destruct (addEdge_outcome from_ to_ st) as [->|[-> _]].
  - by left.
  - left. by rewrite nodeIds_handleMouseMove.
  - left. apply sublist_nil_l.
Qed.

Lemma run_nodeIds_NoDup cmds :
  ∀ st used,
    NoDup (used ++ timestamps cmds) → NoDup (nodeIds st) →
    (∀ i, i ∈ nodeIds st → ∃ n, n ∈ used ∧ i = "node-" +:+ pretty n) →
    NoDup (nodeIds (run cmds st)).
Proof.
  induction cmds as [|c cmds IH]; intros st used Hstamps Hnodup Hused; [done|].
  destruct (step_nodeIds c st) as [Hsub|(now & r1 & r2 & lbl & n & -> & Hnodes & Hid)].
  - apply (IH _ (used ++ timestamps [c])).
    + rewrite <- app_assoc. unfold timestamps in *. by rewrite <- omap_app.
    + by eapply sublist_NoDup.
    + intros i Hi. destruct (Hused i) as (k & Hk & ->); [by eapply elem_of_sublist|].
      exists k. split; [set_solver|done].
  - apply (IH _ (used ++ [now])).
    + by rewrite <- app_assoc.
    + unfold nodeIds. rewrite Hnodes, fmap_app. simpl. apply NoDup_app.
      split; [done|]. split; [|apply NoDup_singleton].
      intros i Hi Hnew%list_elem_of_singleton.
      destruct (Hused i Hi) as (k & Hk & Hik).
      assert (k = now) as ->.
      { rewrite Hnew, Hid in Hik. simpl in Hik. injection Hik as Hik.
        symmetry. by apply (inj pretty). }
      simpl in Hstamps. apply NoDup_app in Hstamps as (_ & Hfresh & _).
      apply (Hfresh now Hk). left.
    + intros i. unfold nodeIds. rewrite Hnodes, fmap_app. simpl.
      intros [Hi|Hi%list_elem_of_singleton]%elem_of_app.
      * destruct (Hused i Hi) as (k & Hk & ->). exists k. split; [set_solver|done].
      * exists now. split; [set_solver|congruence].
Qed.

(** X9. From the empty graph, when no two [addNode] of a sequence of
    commands read the same value of [Date.now()], no two nodes of the graph
    have the same id. *)
Theorem X9_ids_unique_when_timestamps_differ cmds :
  NoDup (timestamps cmds) → NoDup (nodeIds (run cmds emptyGraph)).
Proof.
  intros Hstamps. apply (run_nodeIds_NoDup cmds emptyGraph []).
  - done.
  - constructor.
  - intros i Hi. by apply elem_of_nil in Hi.
Qed.

Lemma X9_witness :
  NoDup (timestamps sampleSession)
  ∧ NoDup (nodeIds (run sampleSession emptyGraph)).
Proof.
  assert (NoDup (timestamps sampleSession)) as Hstamps
    by (by apply (bool_decide_unpack _); vm_compute).
  split; [done|]. exact (X9_ids_unique_when_timestamps_differ sampleSession Hstamps).
Defined.

(** ** Labels *)

Lemma list_ascii_of_rev_app s1 s2 :
  String.list_ascii_of_string (String.rev_app s1 s2)
  = reverse (String.list_ascii_of_string s1) ++ String.list_ascii_of_string s2.
Proof.
  revert s2. induction s1 as [|c s1 IH]; intros s2; simpl; [done|].
  rewrite IH, reverse_cons, <- app_assoc. done.
Qed.

Lemma list_ascii_of_rev s :
  String.list_ascii_of_string (String.rev s) = reverse (String.list_ascii_of_string s).
Proof. unfold String.rev. by rewrite list_ascii_of_rev_app, app_nil_r. Qed.

(** [trimStart] drops a prefix of white space and stops at the first
    character that is not. *)
Lemma trimStart_split s :
  ∃ pre, String.list_ascii_of_string s = pre ++ String.list_ascii_of_string (trimStart s)
         ∧ Forall (λ c, isWhiteSpace c = true) pre
         ∧ ∀ c, head (String.list_ascii_of_string (trimStart s)) = Some c →
                isWhiteSpace c = false.
Proof.
  induction s as [|c s (pre & Hs & Hpre & Hhead)]; simpl.
  - by exists [].
  - destruct (isWhiteSpace c) eqn:Hc.
    + exists (c :: pre). rewrite Hs. split; [done|]. split; [by constructor|done].
    + exists []. split; [done|]. split; [done|]. simpl. by intros ? [= <-].
Qed.

(** [trim] cuts white space off both ends, and nothing else. *)
Lemma trim_split s :
  ∃ pre post,
    String.list_ascii_of_string s = pre ++ String.list_ascii_of_string (trim s) ++ post
    ∧ Forall (λ c, isWhiteSpace c = true) pre
    ∧ Forall (λ c, isWhiteSpace c = true) post
    ∧ (∀ c, head (String.list_ascii_of_string (trim s)) = Some c → isWhiteSpace c = false)
    ∧ (∀ c, last (String.list_ascii_of_string (trim s)) = Some c → isWhiteSpace c = false).
Proof.
  unfold trim.
  destruct (trimStart_split s) as (p1 & Hs & Hp1 & Hhead1).
  destruct (trimStart_split (String.rev (trimStart s))) as (p2 & Hu & Hp2 & Hhead2).
  rewrite list_ascii_of_rev in Hu.
  set (u := String.list_ascii_of_string (trimStart s)) in *.
  set (w := String.list_ascii_of_string (trimStart (String.rev (trimStart s)))) in *.
  assert (u = reverse w ++ reverse p2) as Hu'.
  { rewrite <- reverse_app, <- Hu. by rewrite reverse_involutive. }
  rewrite list_ascii_of_rev. fold w.
  exists p1, (reverse p2). split; [by rewrite Hs, Hu'|].
  split; [done|]. split; [by apply Forall_reverse|]. split.
  - intros c Hc. apply Hhead1. rewrite Hu'. by destruct (reverse w).
  - intros c Hc. apply Hhead2. by rewrite last_reverse in Hc.
Qed.

Lemma trim_empty_iff s :
  trim s = "" ↔ Forall (λ c, isWhiteSpace c = true) (String.list_ascii_of_string s).
Proof.
  destruct (trim_split s) as (pre & post & Hs & Hpre & Hpost & Hhead & _).
  split.
  - intros Hempty. rewrite Hs, Hempty. simpl. by apply Forall_app.
  - intros Hall. destruct (trim s) as [|c t] eqn:Htrim; [done|].
    simpl in *. specialize (Hhead c eq_refl).
    rewrite Hs in Hall. apply Forall_app in Hall as [_ Hall].
    apply Forall_cons in Hall as [Hc _]. congruence.
Qed.

(** X10. [addNode] refuses exactly the labels made of white space only
    (the empty label among them), and then changes nothing. Any other
    label adds one node at the end of the node list and keeps the edges:
    its id is "node-" and the decimal digits of [Date.now()], and its label
    is the typed text without the white space at its two ends. *)
Theorem X10_addNode_label now random1 random2 newNodeLabel st :
  (Forall (λ c, isWhiteSpace c = true) (String.list_ascii_of_string newNodeLabel)
   ∧ addNode now random1 random2 newNodeLabel st = (setError msgEmptyLabel, st))
  ∨ (∃ n pre post,
       addNode now random1 random2 newNodeLabel st
       = (setSuccess msgNodeAdded, mkState (nodes st ++ [n]) (edges st))
       ∧ id n = "node-" +:+ pretty now
       ∧ String.list_ascii_of_string newNodeLabel
         = pre ++ String.list_ascii_of_string (label n) ++ post
       ∧ Forall (λ c, isWhiteSpace c = true) pre
       ∧ Forall (λ c, isWhiteSpace c = true) post
       ∧ label n ≠ ""
       ∧ (∀ c, head (String.list_ascii_of_string (label n)) = Some c →
               isWhiteSpace c = false)
       ∧ (∀ c, last (String.list_ascii_of_string (label n)) = Some c →
               isWhiteSpace c = false)).
Proof.
  unfold addNode. destruct (String.eqb_spec (trim newNodeLabel) "") as [Heq|Hne].
  - left. split; [by apply trim_empty_iff|done].
  - right. destruct (trim_split newNodeLabel)
      as (pre & post & Hs & Hpre & Hpost & Hhead & Hlast).
    eexists _, pre, post. split; [reflexivity|]. simpl. done.
Qed.

(** X12. Two nodes added under the same value of [Date.now()] get the same
    id, whatever their labels; [deleteNode] with that id then removes both. *)
Theorem X12_same_instant_same_id now r1 r2 r1' r2' label1 label2 st :
  trim label1 ≠ "" → trim label2 ≠ "" →
  let st2 := snd (addNode now r1' r2' label2 (snd (addNode now r1 r2 label1 st))) in
  ∃ n1 n2,
    nodes st2 = nodes st ++ [n1; n2] ∧ id n1 = id n2
    ∧ ¬ NoDup (nodeIds st2)
    ∧ nodes (snd (deleteNode (id n1) st2)) = nodes (snd (deleteNode (id n1) st)).
Proof.
  intros H1%String.eqb_neq H2%String.eqb_neq st2. subst st2.
  unfold addNode. rewrite H1. simpl. rewrite H2. simpl.
  eexists _, _. split; [by rewrite <- app_assoc|]. split; [done|]. split.
  - unfold nodeIds. simpl. rewrite <- app_assoc, fmap_app. simpl.
    intros (_ & _ & Hdup)%NoDup_app. apply NoDup_cons in Hdup as [Hdup _].
    apply Hdup. left.
  - simpl. rewrite !List.filter_app. simpl. rewrite String.eqb_refl. simpl.
    by rewrite !app_nil_r.
Qed.

Lemma X12_witness :
  trim "a" ≠ "" ∧ trim "b" ≠ ""
  ∧ ∃ n1 n2,
      nodes (run sameInstant emptyGraph) = [n1; n2] ∧ id n1 = id n2
      ∧ ¬ NoDup (nodeIds (run sameInstant emptyGraph))
      ∧ nodes (snd (deleteNode (id n1) (run sameInstant emptyGraph))) = [].
Proof.
  assert (trim "a" ≠ "") as Ha by done.
  assert (trim "b" ≠ "") as Hb by done.
  split; [done|]. split; [done|].
  exact (X12_same_instant_same_id 7 0.5 0.5 0.25 0.25 "a" "b" emptyGraph Ha Hb).
Defined.

(** ** Dragging *)

Lemma SFcompare_swap a b : SFcompare b a = CompOpp <$> SFcompare a b.
Proof.
  destruct a as [[]|[]| |[] m1 e1], b as [[]|[]| |[] m2 e2]; simpl; try done.
  - rewrite (Z.compare_antisym e1 e2). destruct (e1 ?= e2)%Z; simpl; try done.
    change (Pos.compare_cont Eq m2 m1) with (m2 ?= m1)%positive.
    change (Pos.compare_cont Eq m1 m2) with (m1 ?= m2)%positive.
    by rewrite (Pos.compare_antisym m1 m2).
  - rewrite (Z.compare_antisym e1 e2). destruct (e1 ?= e2)%Z; simpl; try done.
    change (Pos.compare_cont Eq m2 m1) with (m2 ?= m1)%positive.
    change (Pos.compare_cont Eq m1 m2) with (m1 ?= m2)%positive.
    by rewrite (Pos.compare_antisym m1 m2).
Qed.

Lemma SFcompare_not_nan a b :
  SFcompare a a = Some Eq → SFcompare b b = Some Eq → is_Some (SFcompare a b).
Proof.
  destruct a as [[]|[]| |[] m1 e1], b as [[]|[]| |[] m2 e2]; simpl; try done;
    by eexists.
Qed.

Lemma float_ltb_leb a b : (a <? b)%float = true → (a <=? b)%float = true.
Proof.
  rewrite ltb_spec, leb_spec. unfold SFltb, SFleb.
  by destruct (SFcompare _ _) as [[]|].
Qed.

Lemma float_not_nan a : is_nan a = false → SFcompare (Prim2SF a) (Prim2SF a) = Some Eq.
Proof.
  unfold is_nan. intros Heq%negb_false_iff.
  rewrite FloatAxioms.eqb_spec in Heq. unfold SFeqb in Heq.
  by destruct (SFcompare _ _) as [[]|].
Qed.

Lemma float_leb_refl a : is_nan a = false → (a <=? a)%float = true.
Proof.
  intros Ha%float_not_nan. rewrite leb_spec. unfold SFleb. by rewrite Ha.
Qed.

Lemma float_leb_total a b :
  is_nan a = false → is_nan b = false →
  (b <? a)%float = false → (a <=? b)%float = true.
Proof.
  intros Ha%float_not_nan Hb%float_not_nan.
  rewrite ltb_spec, leb_spec. unfold SFltb, SFleb.
  rewrite (SFcompare_swap (Prim2SF a) (Prim2SF b)).
  destruct (SFcompare_not_nan _ _ Ha Hb) as [c ->]. by destruct c.
Qed.

Lemma clampToCanvas_withinMargin pointer origin offset extent :
  withinMargin (clampToCanvas pointer origin offset extent) extent.
Proof.
  unfold withinMargin, clampToCanvas.
  set (v := (pointer - origin - offset)%float).
  set (hi := (extent - 30)%float).
  assert (mathMin v hi = nan ∨
          (is_nan (mathMin v hi) = false ∧ (mathMin v hi <=? hi)%float = true))
    as Hmin.
  { unfold mathMin. destruct (is_nan v) eqn:Hv; [by left|].
    destruct (is_nan hi) eqn:Hhi; [by left|]. simpl. right.
    destruct (_ && _); [by split; [|apply float_leb_refl]|].
    destruct (hi <? v)%float eqn:Hlt; [by split; [|apply float_leb_refl]|].
    split; [done|]. by apply float_leb_total. }
  unfold mathMax.
  assert (is_nan 30 = false) as -> by reflexivity.
  assert (is_zero 30 = false) as -> by reflexivity. simpl.
  destruct Hmin as [->|[Hnan Hle]]; [by left|]. rewrite Hnan.
  rewrite andb_false_r. simpl.
  destruct (30 <? mathMin v hi)%float eqn:Hlt; right.
  - split; [by apply float_ltb_leb|done].
  - by split.
Qed.

(** X13. While a node is dragged over a canvas, each coordinate that
    [handleMouseMove] stores for it is [NaN] or at least 30, and at most the
    width (or height) of the canvas less 30 when that is 30 or more. *)
Theorem X13_dragged_node_stays_within_margin clientX clientY r sel v n :
  View.isDragging v = true → View.selectedNode v = Some sel → sel ≠ "" →
  n ∈ nodes (View.state (View.handleMouseMove clientX clientY (Some r) v)) →
  id n = sel →
  withinMargin (x n) (rectWidth r) ∧ withinMargin (y n) (rectHeight r).
Proof.
  intros Hdrag Hsel Hne. unfold View.handleMouseMove.
  rewrite Hsel, Hdrag. simpl. rewrite (proj2 (String.eqb_neq _ _) Hne). simpl.
  intros (n0 & -> & Hn0)%list_elem_of_fmap.
  destruct (String.eqb (id n0) sel) eqn:Hid; simpl.
  - intros _. split; apply clampToCanvas_withinMargin.
  - intros Heq. by apply String.eqb_neq in Hid.
Qed.

Example mathMax_mathMin_examples :
  mathMax 30 50 = 50%float ∧ mathMax 30 10 = 30%float
  ∧ mathMin 5 770 = 5%float ∧ mathMin 900 770 = 770%float
  ∧ is_nan (mathMax 30 nan) = true
  ∧ get_sign (mathMax neg_zero zero) = false
  ∧ get_sign (mathMin zero neg_zero) = true.
Proof. repeat split; by vm_compute. Qed.

(** ** The component over events *)

Example sampleEvents_result :
  View.edits sampleEvents View.initial = true
  ∧ nodeIds (View.state (View.run (take 12 sampleEvents) View.initial))
    = ["node-1"; "node-2"]
  ∧ edges (View.state (View.run (take 12 sampleEvents) View.initial))
    = [mkEdge "node-1" "node-2"]
  ∧ View.error (View.run (take 13 sampleEvents) View.initial)
    = Some msgWouldCreateCycle
  ∧ nodeIds (View.state (View.run sampleEvents View.initial)) = ["node-2"]
  ∧ edges (View.state (View.run sampleEvents View.initial)) = [].
Proof. repeat split; by vm_compute. Qed.

Lemma step_graph c st :
  namesNodes c st = true → acyclic st → noDangling st →
  acyclic (snd (step c st)) ∧ noDangling (snd (step c st)).
Proof.
  intros Hnames Hacyc Hdang. split; [|by apply step_noDangling].
  apply step_acyclic; [|by split; [|apply noDangling_sourcesExist]].
  destruct c; try done. simpl in *. by apply andb_true_iff in Hnames as [-> _].
Qed.

(** Commands other than [deleteNode] and [clearGraph] keep every node id. *)
Lemma step_keeps_ids c st i :
  match c with cmdDeleteNode _ | cmdClearGraph => False | _ => True end →
  i ∈ nodeIds st → i ∈ nodeIds (snd (step c st)).
Proof.
  destruct c as [now r1 r2 lbl|nodeId|from_ to_|from_ to_|sel x_ y_|];
    cbn [step]; intros Hc Hi; try done.
  - unfold addNode. destruct (String.eqb _ _); [done|].
    unfold nodeIds. simpl. rewrite fmap_app. set_solver.
  - by destruct (addEdge_outcome from_ to_ st) as [->|[-> _]].
  - by rewrite nodeIds_handleMouseMove.
Qed.

Lemma consistent_after c v v' :
  consistent v → namesNodes c (View.state v) = true →
  View.state v' = snd (step c (View.state v)) →
  (∀ sel, View.selectedNode v' = Some sel → sel ∈ nodeIds (View.state v')) →
  (∀ k, View.connectingFrom v' = Some k → k ∈ nodeIds (View.state v')) →
  consistent v'.
Proof.
  intros (Hacyc & Hdang & _ & _) Hnames Hstate Hsel Hcon.
  destruct (step_graph c _ Hnames Hacyc Hdang) as [Hacyc' Hdang'].
  unfold consistent. by rewrite Hstate in *.
Qed.

Lemma consistent_same v v' :
  consistent v → View.state v' = View.state v →
  (∀ sel, View.selectedNode v' = Some sel → sel ∈ nodeIds (View.state v)) →
  (∀ k, View.connectingFrom v' = Some k → k ∈ nodeIds (View.state v)) →
  consistent v'.
Proof.
  intros (Hacyc & Hdang & _ & _) Hstate Hsel Hcon.
  unfold consistent. by rewrite Hstate.
Qed.

Lemma state_report fb v : View.state (View.report fb v) = View.state v.
Proof. by destruct fb. Qed.

Lemma selectedNode_report fb v :
  View.selectedNode (View.report fb v) = View.selectedNode v.
Proof. by destruct fb. Qed.

Lemma connectingFrom_report fb v :
  View.connectingFrom (View.report fb v) = View.connectingFrom v.
Proof. by destruct fb. Qed.

Lemma state_addNode now r1 r2 v :
  View.state (View.addNode now r1 r2 v)
  = snd (step (cmdAddNode now r1 r2 (View.newNodeLabel v)) (View.state v))
  ∧ View.selectedNode (View.addNode now r1 r2 v) = View.selectedNode v
  ∧ View.connectingFrom (View.addNode now r1 r2 v) = View.connectingFrom v.
Proof.
  unfold View.addNode. cbn [step]. unfold addNode.
  by destruct (String.eqb _ _).
Qed.

Lemma state_addEdge from_ to_ v :
  View.state (View.addEdge from_ to_ v)
  = snd (step (cmdAddEdge from_ to_) (View.state v))
  ∧ View.selectedNode (View.addEdge from_ to_ v) = View.selectedNode v
  ∧ View.connectingFrom (View.addEdge from_ to_ v) = View.connectingFrom v.
Proof.
  unfold View.addEdge.
  by rewrite state_report, selectedNode_report, connectingFrom_report.
Qed.

Lemma dispatch_consistent e v :
  View.offered e v = true → View.imports e = false →
  consistent v → consistent (View.dispatch e v).
Proof.
  intros Hoffered Himports Hv.
  pose proof Hv as (_ & _ & Hsel & Hcon).
  destruct e as [s|now r1 r2|n|button cx cy n|cx cy rect| | | |from_ to_| |file| |];
    cbn [View.dispatch View.offered] in *.
  - by apply (consistent_same v).
  - destruct (state_addNode now r1 r2 v) as (Hst & Hs & Hc).
    apply (consistent_after (cmdAddNode now r1 r2 (View.newNodeLabel v)) v);
      [done..| |].
    + rewrite Hs, Hst. intros sel Hsome. apply step_keeps_ids; [done|by apply Hsel].
    + rewrite Hc, Hst. intros k Hsome. apply step_keeps_ids; [done|by apply Hcon].
  - apply bool_decide_eq_true in Hoffered. unfold View.handleNodeClick.
    destruct (View.connectingFrom v) as [c|] eqn:Hfrom.
    + destruct (truthy (Some c)).
      * destruct (negb (String.eqb c n)).
        -- destruct (state_addEdge c n v) as (Hst & Hs & _).
           apply (consistent_after (cmdAddEdge c n) v); simpl; [done| |done| |done].
           ++ rewrite !bool_decide_true; [done..|by apply Hcon].
           ++ rewrite Hs, Hst. intros sel Hsome.
              apply (step_keeps_ids (cmdAddEdge c n)); [done|by apply Hsel].
        -- by apply (consistent_same v).
      * apply (consistent_same v); simpl; [done..| |by rewrite Hfrom].
        by intros sel [= <-].
    + apply (consistent_same v); simpl; [done..| |by rewrite Hfrom].
      by intros sel [= <-].
  - apply bool_decide_eq_true in Hoffered. unfold View.handleNodeMouseDown.
    destruct (negb (N.eqb button 0)); [done|].
    destruct (findNode _ _); apply (consistent_same v); simpl; try done;
      by intros sel [= <-].
  - unfold View.handleMouseMove.
    destruct (View.selectedNode v) as [sel|] eqn:Hs; [|done].
    destruct rect as [r|]; [|done].
    destruct (negb (View.isDragging v) || negb (truthy (Some sel))); [done|].
    set (x_ := clampToCanvas _ _ _ _). set (y_ := clampToCanvas cy _ _ _).
    apply (consistent_after (cmdMouseMove sel x_ y_) v); [done..| |];
      cbn [View.state View.selectedNode View.connectingFrom View.setState].
    + rewrite Hs. intros ? [= <-]. rewrite nodeIds_handleMouseMove. by apply Hsel.
    + intros k Hk. rewrite nodeIds_handleMouseMove. by apply Hcon.
  - by apply (consistent_same v).
  - destruct (View.selectedNode v) as [sel|] eqn:Hs; [|done].
    apply (consistent_same v); simpl; [done..|].
    intros k [= <-]. by apply Hsel.
  - destruct (View.selectedNode v) as [sel|] eqn:Hs; [|done].
    by apply (consistent_after (cmdDeleteNode sel) v).
  - by apply (consistent_after (cmdDeleteEdge from_ to_) v).
  - by apply (consistent_after cmdClearGraph v).
  - destruct file as [[imported|]|]; [done| |done].
    apply (consistent_same v); simpl; done.
  - by apply (consistent_same v).
  - by apply (consistent_same v).
Qed.

Lemma run_consistent events :
  ∀ v, View.edits events v = true → consistent v →
       consistent (View.run events v).
Proof.
  induction events as [|e events IH]; intros v Hedits Hv; [done|].
  simpl in Hedits.
  apply andb_true_iff in Hedits as [[Ho Hi%negb_true_iff]%andb_true_iff Hrest].
  apply IH; [done|]. by apply dispatch_consistent.
Qed.

Lemma edits_take events :
  ∀ v k, View.edits events v = true → View.edits (take k events) v = true.
Proof.
  induction events as [|e events IH]; intros v [|k] Hedits; try done.
  simpl in *. apply andb_true_iff in Hedits as [He Hrest].
  rewrite He. by apply IH.
Qed.

Lemma initial_consistent : consistent View.initial.
Proof.
  split; [apply emptyGraph_acyclic|]. split; [apply emptyGraph_noDangling|].
  by split.
Qed.

Lemma X13_witness :
  ∃ n, n ∈ nodes (View.state
                    (View.handleMouseMove 5 900 (Some (mkRect 0 0 800 600)) draggingA))
       ∧ id n = "A" ∧ x n = 30%float ∧ y n = 570%float
       ∧ withinMargin (x n) 800 ∧ withinMargin (y n) 600.
Proof.
  exists (mkNode "A" "a" 30 570).
  assert (mkNode "A" "a" 30 570
          ∈ nodes (View.state
                     (View.handleMouseMove 5 900 (Some (mkRect 0 0 800 600)) draggingA)))
    as Hin by (vm_compute; left).
  assert ("A" ≠ "") as Hne by done.
  split; [done|]. split; [done|]. split; [done|]. split; [done|].
  exact (X13_dragged_node_stays_within_margin 5 900 (mkRect 0 0 800 600) "A"
           draggingA (mkNode "A" "a" 30 570) eq_refl eq_refl Hne Hin eq_refl).
Defined.

(** X14. From the first render, after every prefix of a sequence of events
    that the render offers (clicks on nodes and edges that are drawn,
    buttons that are shown and enabled) and that imports no graph, the
    graph is acyclic, no edge is dangling, and the selected node and the
    node a connection starts from are nodes of the graph: the calls of
    [addEdge] and [deleteNode] the component makes name existing nodes. *)
Theorem X14_component_keeps_graph_consistent events :
  View.edits events View.initial = true →
  ∀ k, consistent (View.run (take k events) View.initial).
Proof.
  intros Hedits k. apply run_consistent; [by apply edits_take|].
  apply initial_consistent.
Qed.

Lemma X14_witness :
  View.edits sampleEvents View.initial = true
  ∧ consistent (View.run (take 12 sampleEvents) View.initial).
Proof.
  split; [by vm_compute|].
  apply (X14_component_keeps_graph_consistent sampleEvents). by vm_compute.
Defined.

(** X15. In a component whose graph is acyclic, whose edges all leave ids
    of nodes, and whose [connectingFrom] is the id [c] of a node, a click
    on a node [n] does the following. When [c] is the empty string, which
    is falsy, it selects [n] and nothing else: the connection stays.
    Otherwise it ends the connection, keeps the selection, and does one of
    four things: on [c] itself, nothing; when the edge from [c] to [n] is
    there, the error "Edge already exists"; when [n] can reach [c], the
    cycle error; otherwise the edge is appended and the success is shown.
    The graph changes in the last case only. *)
Theorem X15_click_completes_connection c n v :
  acyclic (View.state v) → sourcesExist (View.state v) →
  View.connectingFrom v = Some c → c ∈ nodeIds (View.state v) →
  let v' := View.handleNodeClick n v in
  if bool_decide (c = "")
  then v' = View.setSelectedNode (Some n) v
  else
    View.connectingFrom v' = None
    ∧ View.selectedNode v' = View.selectedNode v
    ∧ if bool_decide (c = n)
      then View.state v' = View.state v
           ∧ View.error v' = View.error v ∧ View.success v' = View.success v
      else if bool_decide (mkEdge c n ∈ edges (View.state v))
      then View.state v' = View.state v
           ∧ View.error v' = Some msgDuplicateEdge
           ∧ View.success v' = View.success v
      else (reaches (View.state v) n c
            ∧ View.state v' = View.state v
            ∧ View.error v' = Some msgWouldCreateCycle
            ∧ View.success v' = View.success v)
           ∨ (¬ reaches (View.state v) n c
              ∧ View.state v'
                = mkState (nodes (View.state v))
                          (edges (View.state v) ++ [mkEdge c n])
              ∧ View.success v' = Some msgEdgeAdded
              ∧ View.error v' = View.error v).
Proof.
  intros Hacyc Hsrc Hfrom Hcon v'. subst v'.
  unfold View.handleNodeClick. rewrite Hfrom. simpl.
  case_bool_decide as Hc.
  - subst c. done.
  - rewrite (proj2 (String.eqb_neq _ _) Hc). simpl.
    case_bool_decide as Hcn.
    + subst n. by rewrite String.eqb_refl.
    + rewrite (proj2 (String.eqb_neq _ _) Hcn). simpl.
      unfold View.addEdge. rewrite addEdge_cases.
      case_bool_decide as Hdup; [done|].
      rewrite bool_decide_false by done.
      destruct (wouldCreateCycle (View.state v) c n) eqn:Hcheck; simpl.
      * split; [done|]. split; [done|]. left.
        apply SearchFacts.wouldCreateCycle_true in Hcheck as [?|Hr]; done.
      * split; [done|]. split; [done|]. right.
        apply SearchFacts.wouldCreateCycle_false in Hcheck as [_ Hr]; done.
Qed.

Lemma X15_witness :
  acyclic chainABC ∧ sourcesExist chainABC ∧ "C" ∈ nodeIds chainABC
  ∧ View.connectingFrom (View.handleNodeClick "A" connectingFromC) = None
  ∧ reaches chainABC "A" "C"
  ∧ View.state (View.handleNodeClick "A" connectingFromC) = chainABC
  ∧ View.error (View.handleNodeClick "A" connectingFromC)
    = Some msgWouldCreateCycle.
Proof.
  assert (sourcesExist chainABC) as Hsrc
    by apply noDangling_sourcesExist, chainABC_noDangling.
  assert ("C" ∈ nodeIds chainABC) as Hcon
    by (by apply (bool_decide_unpack _); vm_compute).
  pose proof (X15_click_completes_connection "C" "A" connectingFromC
                chainABC_acyclic Hsrc eq_refl Hcon) as Hclick.
  split; [apply chainABC_acyclic|]. split; [done|]. split; [done|].
  cbv zeta in Hclick.
  rewrite (bool_decide_false ("C" = "")) in Hclick by done.
  destruct Hclick as (Hnone & _ & Hcases).
  split; [done|].
  rewrite (bool_decide_false ("C" = "A")) in Hcases by done.
  rewrite (bool_decide_false (mkEdge "C" "A" ∈ _)) in Hcases
    by (by apply (bool_decide_unpack _); vm_compute).
  destruct Hcases as [(Hr & Hst & Herr & _)|(_ & _ & Hok & _)]; [done|].
  by vm_compute in Hok.
Defined.

(** ** The search on any graph, exactly *)

Module FullSearch.
Import CycleCheck.

Section Search.

Variable adj : gmap string (list string).

Lemma finished_rtc B a b :
  finished adj B → a ∈ B → rtc (succOf adj) a b → b ∈ B.
Proof.
  intros [Hclosed _] Ha Hab. induction Hab as [a|a a' b Haa' _ IH]; [done|].
  apply IH. by apply (Hclosed a).
Qed.

(** A node all of whose successors are finished is finished with them,
    unless it is its own successor. *)
Lemma finished_add B n :
  finished adj B → n ∉ B → (∀ b, succOf adj n b → b ∈ B) →
  finished adj (B ∪ {[n]}).
Proof.
  intros HB Hn Hsucc. pose proof HB as [Hclosed Hacyc]. split.
  - intros a b [Ha|Ha%elem_of_singleton]%elem_of_union Hab.
    + apply elem_of_union_l. by apply (Hclosed a).
    + subst a. apply elem_of_union_l. by apply Hsucc.
  - intros a [Ha|Ha%elem_of_singleton]%elem_of_union Hcycle;
      [by apply (Hacyc a)|].
    subst a. apply Hn.
    assert (∃ b, succOf adj n b ∧ rtc (succOf adj) b n) as (b & Hnb & Hbn).
    { inversion Hcycle as [? ? Hnn|? b ? Hnb Hbn]; subst.
      - by exists n.
      - exists b. split; [done|]. by apply tc_rtc. }
    apply (finished_rtc B b n); [done| |done]. by apply Hsucc.
Qed.

Lemma forNeighbors_finishes visit :
  (∀ k m m', recStack m ⊆ visited m → k ∉ visited m →
     finished adj (visited m ∖ recStack m) →
     visit k m = Some (false, m') →
     visited m ⊆ visited m' ∧ k ∈ visited m' ∧ recStack m' = recStack m
     ∧ finished adj (visited m' ∖ recStack m')) →
  ∀ ns m m', recStack m ⊆ visited m →
    finished adj (visited m ∖ recStack m) →
    forNeighbors visit ns m = Some (false, m') →
    visited m ⊆ visited m' ∧ recStack m' = recStack m
    ∧ finished adj (visited m' ∖ recStack m')
    ∧ ∀ b, b ∈ ns → b ∈ visited m' ∖ recStack m.
Proof.
  intros Hvisit ns. induction ns as [|n ns IH]; intros m m' Hsub Hfin Hrun;
    simpl in Hrun.
  - injection Hrun as <-. set_solver.
  - destruct (decide (n ∉ visited m)) as [Hn|Hn].
    + destruct (visit n m) as [[[] m1]|] eqn:Hv; try discriminate.
      apply Hvisit in Hv as (Hmono & Hin & Hrec & Hfin1); [|done..].
      apply IH in Hrun as (Hmono' & Hrec' & Hfin' & Hns);
        [|by rewrite Hrec; set_solver|done].
      rewrite Hrec in Hrec', Hns.
      split; [set_solver|]. split; [done|]. split; [done|].
      intros b [->|Hb]%elem_of_cons; [set_solver|by apply Hns].
    + destruct (decide (n ∈ recStack m)) as [Hr|Hr]; [discriminate|].
      apply IH in Hrun as (Hmono' & Hrec' & Hfin' & Hns); [|done..].
      split; [done|]. split; [done|]. split; [done|].
      intros b [->|Hb]%elem_of_cons; [|by apply Hns].
      apply dec_stable in Hn. set_solver.
Qed.

Lemma hasCycle_finishes fuel :
  ∀ n m m', recStack m ⊆ visited m → n ∉ visited m →
    finished adj (visited m ∖ recStack m) →
    hasCycle fuel adj n m = Some (false, m') →
    visited m ⊆ visited m' ∧ n ∈ visited m' ∧ recStack m' = recStack m
    ∧ finished adj (visited m' ∖ recStack m').
Proof.
  induction fuel as [|fuel IH]; intros n m m' Hsub Hn Hfin Hrun; simpl in Hrun;
    [discriminate|].
  destruct (forNeighbors _ _ _) as [[[] m2]|] eqn:Hloop; try discriminate.
  injection Hrun as <-. simpl.
  apply (forNeighbors_finishes _ IH) in Hloop as (Hmono & Hrec & Hfin2 & Hns);
    simpl in *; [|set_solver|].
  - assert (recStack m2 ∖ {[n]} = recStack m) as Hrec' by set_solver.
    split; [set_solver|]. split; [set_solver|]. split; [done|].
    rewrite Hrec'.
    assert (visited m2 ∖ recStack m = (visited m2 ∖ recStack m2) ∪ {[n]}) as ->.
    { rewrite Hrec. apply set_eq. intros a.
      destruct (decide (a = n)); set_solver. }
    apply finished_add; [done|set_solver|].
    intros b Hb. rewrite Hrec. by apply Hns.
  - by assert (({[n]} ∪ visited m) ∖ ({[n]} ∪ recStack m)
               = visited m ∖ recStack m) as -> by set_solver.
Qed.

Lemma forNeighbors_finds (visit : string → Marks → option (bool * Marks)) n :
  (∀ k m (b : bool) m', visit k m = Some (b, m') →
     (∀ a, a ∈ recStack m → rtc (succOf adj) a k) →
     if b then ∃ c, rtc (succOf adj) k c ∧ tc (succOf adj) c c
     else recStack m' ⊆ recStack m) →
  ∀ ns m b m', (∀ k, k ∈ ns → succOf adj n k) →
    (∀ a, a ∈ recStack m → rtc (succOf adj) a n) →
    forNeighbors visit ns m = Some (b, m') →
    if b then ∃ c, rtc (succOf adj) n c ∧ tc (succOf adj) c c
    else recStack m' ⊆ recStack m.
Proof.
  intros Hvisit ns. induction ns as [|k ns IH]; intros m b m' Hns Hstack Hrun;
    simpl in Hrun.
  - by injection Hrun as <- <-.
  - assert (succOf adj n k) as Hnk by (apply Hns; left).
    assert (∀ k', k' ∈ ns → succOf adj n k') as Hns' by (intros; apply Hns; by right).
    assert (∀ a, a ∈ recStack m → rtc (succOf adj) a k) as Hstack'
      by (intros a Ha; eapply rtc_r; eauto).
    destruct (decide (k ∉ visited m)) as [Hk|Hk].
    + destruct (visit k m) as [[[] m1]|] eqn:Hv; try discriminate.
      * injection Hrun as <- <-.
        destruct (Hvisit _ _ true _ Hv Hstack') as (c & Hkc & Hcc).
        exists c. split; [by eapply rtc_l|done].
      * pose proof (Hvisit _ _ false _ Hv Hstack') as Hsub. simpl in Hsub.
        specialize (IH m1 b m' Hns'). destruct b.
        -- apply IH; [|done]. intros a Ha. apply Hstack. set_solver.
        -- etrans; [|exact Hsub]. apply IH; [|done].
           intros a Ha. apply Hstack. set_solver.
    + destruct (decide (k ∈ recStack m)) as [Hr|Hr].
      * injection Hrun as <- <-. exists k. split; [by apply rtc_once|].
        eapply tc_rtc_l; [by apply Hstack|]. by apply tc_once.
      * by apply (IH m b m').
Qed.

Lemma hasCycle_finds fuel :
  ∀ n m b m', hasCycle fuel adj n m = Some (b, m') →
    (∀ a, a ∈ recStack m → rtc (succOf adj) a n) →
    if b then ∃ c, rtc (succOf adj) n c ∧ tc (succOf adj) c c
    else recStack m' ⊆ recStack m.
Proof.
  induction fuel as [|fuel IH]; intros n m b m' Hrun Hstack; simpl in Hrun;
    [discriminate|].
  destruct (forNeighbors _ _ _) as [[b2 m2]|] eqn:Hloop; try discriminate.
  assert (∀ a, a ∈ {[n]} ∪ recStack m → rtc (succOf adj) a n) as Hstack1.
  { intros a [->%elem_of_singleton|Ha]%elem_of_union; [done|by apply Hstack]. }
  pose proof (forNeighbors_finds _ n IH _ (mkMarks _ _) _ _ (λ k Hk, Hk) Hstack1 Hloop)
    as Hs.
  destruct b2; injection Hrun as <- <-; simpl in *; [done|set_solver].
Qed.

End Search.

End FullSearch.

(** X16. On every state and for every pair of ids, [wouldCreateCycle]
    answers [true] exactly when [from] and [to] are the same id, or when,
    along the edges that leave ids of nodes with the candidate edge among
    them, a node that lies on a cycle can be reached from [from]. *)
Theorem X16_wouldCreateCycle_exactly st from_ to_ :
  wouldCreateCycle st from_ to_ = true
  ↔ from_ = to_
    ∨ ∃ c, rtc (searched st from_ to_) from_ c ∧ tc (searched st from_ to_) c c.
Proof.
  assert (∀ a b, CycleCheck.succOf (CycleCheck.adjacencyList st from_ to_) a b
                 ↔ searched st from_ to_ a b) as Hrel
    by (intros a b; apply SearchFacts.succOf_adjacencyList).
  unfold wouldCreateCycle.
  destruct (String.eqb_spec from_ to_) as [Heq|Hne]; [by split; [left|]|].
  destruct (SearchFacts.hasCycle_budget_enough st from_ to_) as (b & m' & Hrun).
  rewrite Hrun. split.
  - intros ->. right.
    apply FullSearch.hasCycle_finds in Hrun as (c & Hfc & Hcc); [|set_solver].
    exists c. split.
    + eapply rtc_subrel; [|exact Hfc]. intros x y. apply Hrel.
    + eapply tc_subrel; [|exact Hcc]. intros x y. apply Hrel.
  - intros [?|(c & Hfc & Hcc)]; [done|]. destruct b; [done|].
    apply FullSearch.hasCycle_finishes in Hrun as (_ & Hin & Hrec & Hfin); simpl;
      [|set_solver|set_solver|].
    + simpl in Hrec.
      assert (c ∈ CycleCheck.visited m' ∖ CycleCheck.recStack m') as Hc.
      { apply (FullSearch.finished_rtc _ _ from_ c Hfin); [set_solver|].
        eapply rtc_subrel; [|exact Hfc]. intros x y. apply Hrel. }
      destruct Hfin as [_ Hacyc]. destruct (Hacyc c Hc).
      eapply tc_subrel; [|exact Hcc]. intros x y. apply Hrel.
    + split; set_solver.
Qed.

(** ** Commands that do not add an edge *)

(** X17. On any graph, a command other than [addEdge] adds no edge: every
    edge afterwards was there before, with each endpoint still naming a
    node if it did; so a node on a cycle afterwards was on one before, and
    a graph without dangling edges stays without. *)
Theorem X17_only_addEdge_adds_edges c st :
  (∃ from_ to_, c = cmdAddEdge from_ to_)
  ∨ (keeps st (snd (step c st))
     ∧ (∀ a, onCycle (snd (step c st)) a → onCycle st a)
     ∧ (sourcesExist st → sourcesExist (snd (step c st)))
     ∧ (noDangling st → noDangling (snd (step c st)))).
Proof.
  assert (∀ st', keeps st st' →
            keeps st st'
            ∧ (∀ a, onCycle st' a → onCycle st a)
            ∧ (sourcesExist st → sourcesExist st')
            ∧ (noDangling st → noDangling st')) as Hkeeps.
  { intros st' Hk. split; [done|]. split; [|split].
    - intros a. unfold onCycle. apply tc_subrel. intros x y. apply Hk.
    - by apply keeps_sourcesExist.
    - by apply keeps_noDangling. }
  destruct c as [now r1 r2 lbl|nodeId|from_ to_|from_ to_|sel x_ y_|];
    cbn [step].
  - right. apply Hkeeps, addNode_keeps.
  - right. apply Hkeeps, deleteNode_keeps.
  - left. by exists from_, to_.
  - right. apply Hkeeps, deleteEdge_keeps.
  - right. apply Hkeeps, handleMouseMove_keeps.
  - right. apply Hkeeps, clearGraph_keeps.
Qed.
